(** * DynamiX rotation scheduler: a shallow embedding of [dynamiXMain.py]

    The automation part of the program (the persisted-state helpers,
    [handle_new_episodes_pinning], [unpin_collections],
    [log_and_update_exclusion_list], [get_current_time_block] and [main],
    lines 113-447 of the source) is embedded as Rocq functions.  Python
    dictionaries keyed by collection title are [gmap string _], dictionaries
    that are iterated in order are association lists, Python [int]s are [Z],
    lengths are [nat], exceptions are an explicit [Raise] result, and the
    remote Plex server, the persisted files, the log, the clock and the
    entropy source are fields of an explicit world and state.

    Conventions of the model: time passes only in [time.sleep]; writing a
    file succeeds; a persisted file that parses holds a value of the
    expected shape; the refresh that [main] schedules on the GUI thread is
    not part of the automation thread and is left out. *)

From Stdlib Require Import ZArith Lia Ascii String.
From stdpp Require Import gmap strings list fin_maps.

Open Scope Z_scope.

(** ** Exceptions and results *)

Inductive Exn :=
  | ValueError
  | TypeError
  | JSONDecodeError
  | OverflowError
  | RemoteError.

Inductive Result (A : Type) :=
  | Return (a : A)
  | Raise (e : Exn).
Arguments Return {A} a.
Arguments Raise {A} e.

(** ** Collections as the server lists them

    [ratingKey] is the identity of the collection object on the server,
    [items] is [len(collection.items())]. *)

Record Collection := mkCollection {
  ratingKey : nat;
  title : string;
  items : nat
}.

Global Instance Collection_eq_dec : EqDecision Collection.
Proof. solve_decision. Defined.

(** ** [random.SystemRandom().sample]

    The entropy source is an oracle: [rng i] is the [i]-th raw draw, and
    [randbelow] reduces it below [n] ([SystemRandom] itself draws bits until
    the value is below [n]; which value that is, is the oracle's to say).

    [random.sample] has two loops and chooses between them by the size of
    the population.  When [n <= setsize] it copies the population into a
    pool ([sample_pool]): the drawn slot is refilled with the last live
    element and the live part of the pool shrinks by one.  Above [setsize]
    it keeps the drawn indices in a set ([sample_set]): it draws an index
    below [n] and, [while j in selected], draws again.  That loop ends, with
    probability one, on an index not drawn before; which one is again the
    oracle's to say ([redraw]): the model reads it off the same raw draw, as
    a position among the indices still free. *)

Definition Rng := nat → nat.

Definition randbelow (rng : Rng) (i n : nat) : nat := (rng i `mod` n)%nat.

Fixpoint sample_pool {A} (rng : Rng) (i k : nat) (pool : list A) : list A :=
  match k with
  | O => []
  | S k' =>
      let n := length pool in
      let j := randbelow rng i n in
      match pool !! j, pool !! (n - 1)%nat with
      | Some x, Some y =>
          x :: sample_pool rng (S i) k' (take (n - 1) (<[j := y]> pool))
      | _, _ => []
      end
  end.

(** The indices below [n] that are not in [selected]. *)
Definition free_indices (n : nat) (selected : list nat) : list nat :=
  filter (λ j, j ∉ selected) (seq 0 n).

(** What [while j in selected: j = randbelow(n)] ends on. *)
Definition redraw (rng : Rng) (i n : nat) (selected : list nat) : nat :=
  let free := free_indices n selected in
  default n (free !! randbelow rng i (length free)).

Fixpoint sample_set {A} (rng : Rng) (i k : nat) (population : list A)
    (selected : list nat) : list A :=
  match k with
  | O => []
  | S k' =>
      let n := length population in
      let j := randbelow rng i n in
      let j := if decide (j ∈ selected) then redraw rng i n selected else j in
      match population !! j with
      | Some x => x :: sample_set rng (S i) k' population (j :: selected)
      | None => []
      end
  end.

(** [setsize = 21; if k > 5: setsize += 4 ** _ceil(_log(k * 3, 4))].  The
    exponent is the least [e] with [3 k <= 4 ^ e], computed here on integers
    ([3 k] is never a power of 4, so the floating-point logarithm of the
    source rounds to the same [e] for every [k] a list can have). *)
Definition setsize (k : nat) : nat :=
  if decide (5 < k)%nat
  then (21 + 4 ^ ((Nat.log2_up (k * 3) + 1) / 2))%nat
  else 21%nat.

(** [sample(population, k)] raises [ValueError] unless [0 <= k <= n]. *)
Definition sample {A} (rng : Rng) (i : nat) (population : list A) (k : Z)
  : Result (list A) :=
  if decide (0 ≤ k ∧ k ≤ Z.of_nat (length population))
  then Return
         (if decide (length population ≤ setsize (Z.to_nat k))%nat
          then sample_pool rng i (Z.to_nat k) population
          else sample_set rng i (Z.to_nat k) population [])
  else Raise ValueError.

(** ** The selection step of [main] (source lines 372-396) *)

Definition is_valid (min_items : Z) (used_collections : gmap string string)
    (user_exemptions : list string) (c : Collection) : Prop :=
  min_items ≤ Z.of_nat (items c)
  ∧ used_collections !! title c = None
  ∧ title c ∉ user_exemptions.

Global Instance is_valid_dec m u e c : Decision (is_valid m u e c).
Proof. unfold is_valid. apply _. Defined.

Definition valid_collections (collections : list Collection) (min_items : Z)
    (used_collections : gmap string string) (user_exemptions : list string)
  : list Collection :=
  filter (is_valid min_items used_collections user_exemptions) collections.

(** What the body of the per-library loop does after the filter. *)
Inductive Selection :=
  | Insufficient                     (* reset_needed = True; break *)
  | Skipped                          (* nothing valid: continue *)
  | Picked (to_pin : list Collection) (* collections_to_pin *)
  | SampleFailed (e : Exn).          (* raised inside the library's try block *)

Definition select (rng : Rng) (i : nat) (collections : list Collection)
    (final_limit min_items : Z) (used_collections : gmap string string)
    (user_exemptions : list string) : Selection :=
  let valid := valid_collections collections min_items used_collections
                                 user_exemptions in
  if decide (Z.of_nat (length valid) < final_limit) then Insufficient
  else match valid with
       | [] => Skipped
       | _ =>
           let pin_limit := Z.min (Z.of_nat (length valid)) final_limit in
           match sample rng i valid pin_limit with
           | Return to_pin => Picked to_pin
           | Raise e => SampleFailed e
           end
       end.

Definition collections_to_pin (s : Selection) : list Collection :=
  match s with
  | Picked to_pin => to_pin
  | _ => []
  end.

Definition reset_signalled (s : Selection) : bool :=
  match s with
  | Insufficient => true
  | _ => false
  end.


(** ** Calendar dates

    [datetime.date] values; ordering is the lexicographic order on
    (year, month, day), as [date.__gt__] compares. *)

Record Date := mkDate { year : Z; month : Z; day : Z }.

Global Instance Date_eq_dec : EqDecision Date.
Proof. solve_decision. Defined.

Definition date_lt (a b : Date) : Prop :=
  year a < year b
  ∨ (year a = year b ∧ (month a < month b
                        ∨ (month a = month b ∧ day a < day b))).

Global Instance date_lt_dec a b : Decision (date_lt a b).
Proof. unfold date_lt. apply _. Defined.

Definition is_leap (y : Z) : bool :=
  (y mod 4 =? 0) && (negb (y mod 100 =? 0) || (y mod 400 =? 0)).

Definition days_in_month (y m : Z) : Z :=
  if m =? 2 then (if is_leap y then 29 else 28)
  else if (m =? 4) || (m =? 6) || (m =? 9) || (m =? 11) then 30
  else 31.

Definition valid_date (d : Date) : bool :=
  (1 <=? year d) && (year d <=? 9999)
  && (1 <=? month d) && (month d <=? 12)
  && (1 <=? day d) && (day d <=? days_in_month (year d) (month d)).

Definition next_day (d : Date) : Date :=
  if day d <? days_in_month (year d) (month d)
  then mkDate (year d) (month d) (day d + 1)
  else if month d <? 12 then mkDate (year d) (month d + 1) 1
  else mkDate (year d + 1) 1 1.

Definition prev_day (d : Date) : Date :=
  if 1 <? day d then mkDate (year d) (month d) (day d - 1)
  else if 1 <? month d
       then mkDate (year d) (month d - 1) (days_in_month (year d) (month d - 1))
       else mkDate (year d - 1) 12 31.

Definition plus_days (d : Date) (n : Z) : Date :=
  if 0 <=? n then Nat.iter (Z.to_nat n) next_day d
  else Nat.iter (Z.to_nat (- n)) prev_day d.

(** [current_date + timedelta(days=n)]: [OverflowError] outside years
    1..9999. *)
Definition date_add (d : Date) (n : Z) : Result Date :=
  let r := plus_days d n in
  if (1 <=? year r) && (year r <=? 9999) then Return r
  else Raise OverflowError.

(** *** ['%Y-%m-%d'] formatting and parsing *)

Definition digit_char (n : Z) : ascii :=
  ascii_of_nat (48 + Z.to_nat (n mod 10)).

Definition pad2 (n : Z) : string :=
  String (digit_char (n / 10)) (String (digit_char n) EmptyString).

Definition pad4 (n : Z) : string :=
  String (digit_char (n / 1000)) (String (digit_char (n / 100)) (pad2 n)).

(** [%Y] as the C library writes it: the year in decimal.  From the year
    1000 on that is four digits everywhere; below, it depends on the
    platform: glibc writes the year without padding, ['999'], others write
    ['0999'].  The model follows glibc, and the properties below that depend
    on the written form are stated from the year 1000 on. *)
Definition year_digits (y : Z) : string :=
  if y <? 10 then String (digit_char y) EmptyString
  else if y <? 100 then pad2 y
  else if y <? 1000 then String (digit_char (y / 100)) (pad2 y)
  else pad4 y.

(** [date.strftime('%Y-%m-%d')]; [%m] and [%d] are always two digits. *)
Definition strftime_ymd (d : Date) : string :=
  year_digits (year d) +:+ "-" +:+ pad2 (month d) +:+ "-" +:+ pad2 (day d).

Definition digit_value (a : ascii) : option Z :=
  let n := nat_of_ascii a in
  if ((48 <=? n) && (n <=? 57))%nat then Some (Z.of_nat (n - 48)) else None.

Definition one_digit (s : string) : option (Z * string) :=
  match s with
  | String a rest =>
      match digit_value a with
      | Some v => Some (v, rest)
      | None => None
      end
  | EmptyString => None
  end.

Definition two_digits (s : string) : option (Z * Z * string) :=
  match one_digit s with
  | Some (a, rest) =>
      match one_digit rest with
      | Some (b, rest') => Some (a, b, rest')
      | None => None
      end
  | None => None
  end.

(** [%Y] is [\d\d\d\d]. *)
Definition parse_year (s : string) : option (Z * string) :=
  match two_digits s with
  | Some (a, b, rest) =>
      match two_digits rest with
      | Some (c, d, rest') => Some (1000 * a + 100 * b + 10 * c + d, rest')
      | None => None
      end
  | None => None
  end.

(** [%m] is [1[0-2]|0[1-9]|[1-9]]. *)
Definition parse_month (s : string) : option (Z * string) :=
  match two_digits s with
  | Some (a, b, rest) =>
      if ((a =? 1) && (b <=? 2)) || ((a =? 0) && (1 <=? b))
      then Some (10 * a + b, rest)
      else match one_digit s with
           | Some (v, rest1) => if 1 <=? v then Some (v, rest1) else None
           | None => None
           end
  | None =>
      match one_digit s with
      | Some (v, rest1) => if 1 <=? v then Some (v, rest1) else None
      | None => None
      end
  end.

(** [%d] is [3[0-1]|[1-2]\d|0[1-9]|[1-9]| [1-9]]. *)
Definition parse_day (s : string) : option (Z * string) :=
  let single :=
    match one_digit s with
    | Some (v, rest1) => if 1 <=? v then Some (v, rest1) else None
    | None =>
        match s with
        | String " " rest =>
            match one_digit rest with
            | Some (v, rest1) => if 1 <=? v then Some (v, rest1) else None
            | None => None
            end
        | _ => None
        end
    end in
  match two_digits s with
  | Some (a, b, rest) =>
      if ((a =? 3) && (b <=? 1)) || (a =? 1) || (a =? 2)
         || ((a =? 0) && (1 <=? b))
      then Some (10 * a + b, rest)
      else single
  | None => single
  end.

Definition expect_dash (s : string) : option string :=
  match s with
  | String "-" rest => Some rest
  | _ => None
  end.

(** [datetime.strptime(s, '%Y-%m-%d').date()]; [None] is [ValueError] (no
    match, unconverted data, or no such day).  The digits read are the ASCII
    ones: [strptime] also takes the decimal digits of other scripts, which a
    file written by this program never holds, so a [None] here is a
    [ValueError] of the source when the text is ASCII ([ascii_text]). *)
Definition strptime_ymd (s : string) : option Date :=
  '(y, s1) ← parse_year s;
  s2 ← expect_dash s1;
  '(m, s3) ← parse_month s2;
  s4 ← expect_dash s3;
  '(d, s5) ← parse_day s4;
  match s5 with
  | EmptyString =>
      let r := mkDate y m d in if valid_date r then Some r else None
  | _ => None
  end.

(** Text made of ASCII characters only. *)
Fixpoint ascii_text (s : string) : bool :=
  match s with
  | EmptyString => true
  | String a rest => (nat_of_ascii a <? 128)%nat && ascii_text rest
  end.

(** ** Step 1 of the cycle: dropping expired exclusions
    (source lines 337-340)

    The comprehension keeps the entries whose parsed date is after
    [current_date]; [strptime] raising on any value aborts it. *)

Definition parses (v : string) : Prop := is_Some (strptime_ymd v).

Definition expires_after (current_date : Date) (v : string) : Prop :=
  match strptime_ymd v with
  | Some d => date_lt current_date d
  | None => False
  end.

Global Instance expires_after_dec D v : Decision (expires_after D v).
Proof. unfold expires_after. destruct (strptime_ymd v); apply _. Defined.

Definition clean (used_collections : gmap string string) (current_date : Date)
  : Result (gmap string string) :=
  if decide (map_Forall (λ _ v, parses v) used_collections)
  then Return (filter (λ kv, expires_after current_date kv.2) used_collections)
  else Raise ValueError.

(** ** Wall clock

    [datetime.now()]: a date, a weekday (0 is Monday) and the seconds since
    midnight.  [strftime("%A")] and [strftime("%H:%M")] are [day_name] and
    [hhmm]. *)

Record DateTime := mkDateTime {
  date : Date;
  weekday : Z;
  seconds : Z
}.

Definition day_name (n : Z) : string :=
  match n mod 7 with
  | 0 => "Monday"
  | 1 => "Tuesday"
  | 2 => "Wednesday"
  | 3 => "Thursday"
  | 4 => "Friday"
  | 5 => "Saturday"
  | _ => "Sunday"
  end.

Definition hhmm (t : DateTime) : string :=
  pad2 (seconds t / 3600) +:+ ":" +:+ pad2 ((seconds t / 60) mod 60).

(** The clock [secs] seconds after [t]. *)
Definition advance (t : DateTime) (secs : Z) : DateTime :=
  let total := seconds t + secs in
  let days := total / 86400 in
  mkDateTime (plus_days (date t) days) ((weekday t + days) mod 7)
             (total mod 86400).

(** ** Configuration document

    Dictionaries that are only looked up or iterated in order are
    association lists; an absent key is [None] where the source uses
    [.get(key, default)]. *)

Fixpoint assoc_get {V} (k : string) (l : list (string * V)) : option V :=
  match l with
  | [] => None
  | (k', v) :: rest => if decide (k' = k) then Some v else assoc_get k rest
  end.

Record BlockDetails := mkBlock {
  start_time : option string;
  end_time : option string;
  limit : option Z
}.

(** The value stored for a weekday: a dictionary of blocks, or anything
    else. *)
Inductive DayBlocks :=
  | NotADict
  | Blocks (blocks : list (string * BlockDetails)).

Record LibrarySettings := mkLibrarySettings {
  time_blocks : list (string * DayBlocks);
  default_limit : option Z
}.

Record Config := mkConfig {
  libraries : list string;
  minimum_items : option Z;
  exclusion_days : option Z;
  always_pin_new_episodes : option bool;
  pinning_interval : option Z;
  default_limits : list (string * Z);
  libraries_settings : list (string * LibrarySettings)
}.

(** ** The Plex server

    [sections] is what [plex.library.section(name).collections()] yields
    (a missing library raises).  Every visibility-hub call made is recorded
    in the state; [raises n call] tells whether [call], issued when [n]
    calls have been made before it, raises. *)

Inductive HubOp := promoteHome | promoteShared | demoteHome | demoteShared.

Inductive RemoteCall :=
  | Visibility (key : nat)
  | Hub (key : nat) (op : HubOp).

Global Instance HubOp_eq_dec : EqDecision HubOp.
Proof. solve_decision. Defined.
Global Instance RemoteCall_eq_dec : EqDecision RemoteCall.
Proof. solve_decision. Defined.

Definition call_key (c : RemoteCall) : nat :=
  match c with
  | Visibility k => k
  | Hub k _ => k
  end.

Record Plex := mkPlex {
  sections : list (string * Result (list Collection));
  raises : nat → RemoteCall → bool
}.

(** ** Persisted JSON files *)

Inductive File (A : Type) :=
  | Absent
  | Invalid              (* exists, but [json.load] cannot parse it *)
  | Content (a : A).
Arguments Absent {A}.
Arguments Invalid {A}.
Arguments Content {A} a.

(** ** Log records *)

Inductive Level := INFO | WARNING | ERROR.

Inductive Msg :=
  | UsedCollectionsSaved
  | ExclusionFileReset
  | RefreshingExclusionTab
  | HandlingNewEpisodes
  | NewEpisodesPinned (library_name : string)
  | ErrorPinningNewEpisodes (e : Exn)
  | NewEpisodesUnpinned (library_name : string)
  | ErrorUnpinningNewEpisodes (e : Exn)
  | ErrorAccessingLibrary (library_name : string) (e : Exn)
  | UnpinningCurrent
  | ErrorUnpinning (title : string) (e : Exn)
  | AddingToExclusion (title : string) (expiration_date : string)
  | InvalidTimeBlocks (current_day library_name : string)
  | EnteringLoop
  | CleaningUp
  | UpdatedExclusionList
  | PinningNew
  | ProcessingLibrary (library_name : string)
  | LibraryTimeBlock (library_name current_block : string) (current_limit : Z)
  | NotEnoughValid (library_name : string) (required : Z) (available : nat)
  | NoValidCollections (library_name : string)
  | ValidCollections (library_name : string) (titles : list string)
  | SelectedToPin
  | PinnedSuccessfully (title : string)
  | ErrorPinning (title : string) (e : Exn)
  | ErrorProcessingLibrary (library_name : string) (e : Exn)
  | ResettingExclusionList
  | ErrorResettingExclusionList (e : Exn)
  | NoNewPinned
  | Sleeping (minutes : Z)
  | AnErrorOccurred (e : Exn)
  | ScriptTerminated.

(** ** World and state

    The world is what the loop only reads; the state is what it changes.
    [calls] and [log] are kept most recent first.  [elapsed] is the time
    spent in [time.sleep], in seconds; [stop_at] is the instant at which
    the control plane sets the stop event, if it does. *)

Record World := mkWorld {
  config : Config;
  plex : Plex;
  rng : Rng;
  started : DateTime;
  stop_at : option Z;
  gui_instance : bool;
  user_exemptions_file : File (list string)
}.

Record State := mkState {
  used_collections_file : File (gmap string string);
  calls : list RemoteCall;
  log : list (Level * Msg);
  elapsed : Z;
  draws : nat
}.

Definition now (w : World) (st : State) : DateTime :=
  advance (started w) (elapsed st).

(** ** A state and exception monad for the effectful code *)

Definition M (A : Type) : Type := State → State * Result A.

Definition ret {A} (a : A) : M A := λ st, (st, Return a).

Definition raise {A} (e : Exn) : M A := λ st, (st, Raise e).

Definition lift {A} (r : Result A) : M A := λ st, (st, r).

Definition bindM {A B} (m : M A) (k : A → M B) : M B := λ st,
  match m st with
  | (st', Return a) => k a st'
  | (st', Raise e) => (st', Raise e)
  end.

Notation "'let*' x ':=' m 'in' k" := (bindM m (λ x, k))
  (at level 10, x pattern, m at level 100, k at level 200).

(** [try: m except Exception as e: handler e] *)
Definition try_except {A} (m : M A) (handler : Exn → M A) : M A := λ st,
  match m st with
  | (st', Raise e) => handler e st'
  | r => r
  end.

(** [for x in l: body x] without [break]. *)
Fixpoint for_each {A} (l : list A) (body : A → M unit) : M unit :=
  match l with
  | [] => ret tt
  | x :: rest => let* _ := body x in for_each rest body
  end.

Definition logging (lvl : Level) (m : Msg) : M unit := λ st,
  (mkState (used_collections_file st) (calls st) ((lvl, m) :: log st)
           (elapsed st) (draws st), Return tt).

Definition get_state : M State := λ st, (st, Return st).

(** A remote call: recorded, then it raises or not. *)
Definition remote (w : World) (c : RemoteCall) : M unit := λ st,
  let st' := mkState (used_collections_file st) (c :: calls st) (log st)
                     (elapsed st) (draws st) in
  if raises (plex w) (length (calls st)) c then (st', Raise RemoteError)
  else (st', Return tt).

(** [plex.library.section(library_name).collections()] *)
Definition section (w : World) (library_name : string)
  : M (list Collection) :=
  match assoc_get library_name (sections (plex w)) with
  | Some r => lift r
  | None => raise RemoteError
  end.

(** [hub = collection.visibility(); hub.promoteHome(); hub.promoteShared()] *)
Definition promote (w : World) (c : Collection) : M unit :=
  let* _ := remote w (Visibility (ratingKey c)) in
  let* _ := remote w (Hub (ratingKey c) promoteHome) in
  remote w (Hub (ratingKey c) promoteShared).

(** [hub = collection.visibility(); hub.demoteHome(); hub.demoteShared()] *)
Definition demote (w : World) (c : Collection) : M unit :=
  let* _ := remote w (Visibility (ratingKey c)) in
  let* _ := remote w (Hub (ratingKey c) demoteHome) in
  remote w (Hub (ratingKey c) demoteShared).

(** ** File helpers (source lines 113-165) *)

Definition load_used_collections : M (gmap string string) := λ st,
  match used_collections_file st with
  | Absent => (st, Return ∅)
  | Invalid => (st, Raise JSONDecodeError)
  | Content m => (st, Return m)
  end.

Definition load_user_exemptions (w : World) : M (list string) := λ st,
  match user_exemptions_file w with
  | Absent => (st, Return [])
  | Invalid => (st, Raise JSONDecodeError)
  | Content l => (st, Return l)
  end.

Definition write_used_collections (m : gmap string string) : M unit := λ st,
  (mkState (Content m) (calls st) (log st) (elapsed st) (draws st), Return tt).

Definition save_used_collections (used_collections : gmap string string)
  : M unit :=
  let* _ := write_used_collections used_collections in
  logging INFO UsedCollectionsSaved.

Definition reset_exclusion_list_file : M unit :=
  let* _ := write_used_collections ∅ in
  logging INFO ExclusionFileReset.

(** ** [handle_new_episodes_pinning] (source lines 182-216) *)

Definition lower_ascii (a : ascii) : ascii :=
  let n := nat_of_ascii a in
  if ((65 <=? n) && (n <=? 90))%nat then ascii_of_nat (n + 32) else a.

(** [str.lower()] on ASCII text. *)
Fixpoint lower (s : string) : string :=
  match s with
  | EmptyString => EmptyString
  | String a rest => String (lower_ascii a) (lower rest)
  end.

Definition is_new_episodes (c : Collection) : Prop :=
  lower (title c) = "new episodes".

Global Instance is_new_episodes_dec c : Decision (is_new_episodes c).
Proof. unfold is_new_episodes. apply _. Defined.

(** The inner [for collection in library.collections()] with its [break]. *)
Fixpoint toggle_new_episodes (w : World) (always_pin : bool)
    (library_name : string) (collections : list Collection) : M unit :=
  match collections with
  | [] => ret tt
  | collection :: rest =>
      if decide (is_new_episodes collection) then
        if always_pin then
          try_except
            (let* _ := promote w collection in
             logging INFO (NewEpisodesPinned library_name))
            (λ e, logging ERROR (ErrorPinningNewEpisodes e))
        else
          try_except
            (let* _ := demote w collection in
             logging INFO (NewEpisodesUnpinned library_name))
            (λ e, logging ERROR (ErrorUnpinningNewEpisodes e))
      else toggle_new_episodes w always_pin library_name rest
  end.

(** The body of [for library_name in libraries]. *)
Definition handle_new_episodes_library (w : World) (always_pin : bool)
    (library_name : string) : M unit :=
  try_except
    (let* collections := section w library_name in
     toggle_new_episodes w always_pin library_name collections)
    (λ e, logging ERROR (ErrorAccessingLibrary library_name e)).

Definition handle_new_episodes_pinning (w : World) (libraries : list string)
    (always_pin : bool) : M unit :=
  let* _ := logging INFO HandlingNewEpisodes in
  for_each libraries (handle_new_episodes_library w always_pin).

(** ** [unpin_collections] (source lines 218-242) *)

Definition unpin_collection (w : World) (always_pin : bool)
    (collection : Collection) : M unit :=
  if always_pin && bool_decide (is_new_episodes collection) then ret tt
  else try_except (demote w collection)
                  (λ e, logging ERROR (ErrorUnpinning (title collection) e)).

Definition unpin_collections (w : World) (libraries : list string)
    (always_pin : bool) : M unit :=
  let* _ := logging INFO UnpinningCurrent in
  for_each libraries (λ library_name,
    try_except
      (let* collections := section w library_name in
       for_each collections (unpin_collection w always_pin))
      (λ e, logging ERROR (ErrorAccessingLibrary library_name e))).

(** ** [log_and_update_exclusion_list] (source lines 244-260)

    The dictionary is updated in place; the updated dictionary is the
    result. *)

Fixpoint record_pinned (current_date : Date) (exclusion_days : Z)
    (previous_pinned : list Collection) (used_collections : gmap string string)
  : M (gmap string string) :=
  match previous_pinned with
  | [] => ret used_collections
  | collection :: rest =>
      let* d := lift (date_add current_date exclusion_days) in
      let expiration_date := strftime_ymd d in
      let* _ := logging INFO (AddingToExclusion (title collection)
                                                expiration_date) in
      record_pinned current_date exclusion_days rest
                    (<[title collection := expiration_date]> used_collections)
  end.

Definition log_and_update_exclusion_list (w : World)
    (previous_pinned : list Collection) (used_collections : gmap string string)
    (exclusion_days : Z) : M (gmap string string) :=
  let* st := get_state in
  let current_date := date (now w st) in
  let* used := record_pinned current_date exclusion_days previous_pinned
                             used_collections in
  let* _ := save_used_collections used in
  ret used.

(** ** [get_current_time_block] (source lines 262-292) *)

(** [details.get("start_time") <= current_time < details.get("end_time")]:
    comparing [None] with a string raises [TypeError]; the second
    comparison is only made when the first holds. *)
Definition block_contains (details : BlockDetails) (current_time : string)
  : Result bool :=
  match start_time details with
  | None => Raise TypeError
  | Some s =>
      if String.leb s current_time then
        match end_time details with
        | None => Raise TypeError
        | Some e => Return (String.ltb current_time e)
        end
      else Return false
  end.

Fixpoint first_matching_block (current_time : string)
    (library_default_limit : Z) (day_blocks : list (string * BlockDetails))
  : Result (string * Z) :=
  match day_blocks with
  | [] => Return ("Default", library_default_limit)
  | (block, details) :: rest =>
      match block_contains details current_time with
      | Raise e => Raise e
      | Return true =>
          Return (block, default library_default_limit (limit details))
      | Return false =>
          first_matching_block current_time library_default_limit rest
      end
  end.

Definition library_settings_of (cfg : Config) (library_name : string)
  : LibrarySettings :=
  default (mkLibrarySettings [] None)
          (assoc_get library_name (libraries_settings cfg)).

Definition get_current_time_block (w : World) (library_name : string)
  : M (string * Z) :=
  let* st := get_state in
  let current_day := day_name (weekday (now w st)) in
  let current_time := hhmm (now w st) in
  let library_settings := library_settings_of (config w) library_name in
  let library_default_limit :=
    default 5 (assoc_get library_name (default_limits (config w))) in
  match default (Blocks []) (assoc_get current_day
                                        (time_blocks library_settings)) with
  | NotADict =>
      let* _ := logging ERROR (InvalidTimeBlocks current_day library_name) in
      ret ("Default", library_default_limit)
  | Blocks day_blocks =>
      lift (first_matching_block current_time library_default_limit day_blocks)
  end.

(** ** [main] (source lines 298-447) *)

(** The [for collection in collections_to_pin] loop (lines 401-409):
    a collection is appended to [previous_pinned] only after its three
    remote calls returned. *)
Fixpoint pin_collections (w : World) (collections_to_pin : list Collection)
    (previous_pinned : list Collection) : M (list Collection) :=
  match collections_to_pin with
  | [] => ret previous_pinned
  | collection :: rest =>
      let* previous_pinned' :=
        try_except
          (let* _ := promote w collection in
           let* _ := logging INFO (PinnedSuccessfully (title collection)) in
           ret (previous_pinned ++ [collection]))
          (λ e,
           let* _ := logging ERROR (ErrorPinning (title collection) e) in
           ret previous_pinned) in
      pin_collections w rest previous_pinned'
  end.

(** Lines 366-370: the limit used when the resolver says ["Default"]. *)
Definition final_limit_of (cfg : Config) (library_name : string)
    (current_block : string) (current_limit : Z) : Z :=
  let library_settings := library_settings_of cfg library_name in
  let default_limit := default 5 (default_limit library_settings) in
  if decide (current_block ≠ "Default") then current_limit else default_limit.

Definition consume (k : nat) : M unit := λ st,
  (mkState (used_collections_file st) (calls st) (log st) (elapsed st)
           (draws st + k), Return tt).

(** The body of [for library_name in libraries] (lines 356-412); the
    boolean is [True] when the body ends in [reset_needed = True; break]. *)
Definition process_library (w : World) (min_items : Z)
    (used_collections : gmap string string) (user_exemptions : list string)
    (library_name : string) (previous_pinned : list Collection)
  : M (list Collection * bool) :=
  try_except
    (let* _ := logging INFO (ProcessingLibrary library_name) in
     let* collections := section w library_name in
     let* (current_block, current_limit) :=
       get_current_time_block w library_name in
     let* _ := logging INFO (LibraryTimeBlock library_name current_block
                                              current_limit) in
     let final_limit :=
       final_limit_of (config w) library_name current_block current_limit in
     let valid := valid_collections collections min_items used_collections
                                    user_exemptions in
     let* st := get_state in
     match select (rng w) (draws st) collections final_limit min_items
                  used_collections user_exemptions with
     | Insufficient =>
         let* _ := logging WARNING (NotEnoughValid library_name final_limit
                                                   (length valid)) in
         ret (previous_pinned, true)
     | Skipped =>
         let* _ := logging INFO (NoValidCollections library_name) in
         ret (previous_pinned, false)
     | SampleFailed e => raise e
     | Picked collections_to_pin =>
         let* _ := consume (length collections_to_pin) in
         let* _ := logging INFO (ValidCollections library_name
                                                  (title <$> valid)) in
         let* _ := logging INFO SelectedToPin in
         let* previous_pinned' :=
           pin_collections w collections_to_pin previous_pinned in
         ret (previous_pinned', false)
     end)
    (λ e,
     let* _ := logging ERROR (ErrorProcessingLibrary library_name e) in
     ret (previous_pinned, false)).

(** [for library_name in libraries] with its [break]. *)
Fixpoint pin_libraries (w : World) (min_items : Z)
    (used_collections : gmap string string) (user_exemptions : list string)
    (libraries : list string) (previous_pinned : list Collection)
  : M (list Collection * bool) :=
  match libraries with
  | [] => ret (previous_pinned, false)
  | library_name :: rest =>
      let* (previous_pinned', reset_needed) :=
        process_library w min_items used_collections user_exemptions
                        library_name previous_pinned in
      if reset_needed then ret (previous_pinned', true)
      else pin_libraries w min_items used_collections user_exemptions rest
                         previous_pinned'
  end.

(** [gui_instance.reset_exclusion_list()] (lines 1368-1378). *)
Definition gui_reset_exclusion_list : M unit :=
  try_except
    (let* _ := reset_exclusion_list_file in
     let* _ := logging INFO RefreshingExclusionTab in
     let* _ := load_used_collections in
     ret tt)
    (λ e, logging ERROR (ErrorResettingExclusionList e)).

(** [time.sleep(secs)]: one call, for the whole duration; a negative
    duration raises [ValueError].  This is the call for a number of seconds
    that fits the C clock, up to 9223372036 either way; beyond that it
    raises [OverflowError], which is left out here, and the properties
    below about what a pass can raise are stated within that range. *)
Definition sleep (secs : Z) : M unit := λ st,
  if secs <? 0 then (st, Raise ValueError)
  else (mkState (used_collections_file st) (calls st) (log st)
                (elapsed st + secs) (draws st), Return tt).

(** How one pass through the body of the [while] loop ends. *)
Inductive Pass :=
  | Restart (used_collections : gmap string string)  (* [continue] *)
  | Slept (used_collections : gmap string string).   (* end of the body *)

(** Steps 1 to 3 of a pass (lines 333-351): clean and save the exclusion
    map, toggle 'New Episodes', unpin.  The cleaned map is the result. *)
Definition begin_cycle (w : World) (used_collections : gmap string string)
  : M (gmap string string) :=
  let cfg := config w in
  let always_pin := default false (always_pin_new_episodes cfg) in
  let* st := get_state in
  let current_date := date (now w st) in
  let* _ := logging INFO CleaningUp in
  let* used_collections := lift (clean used_collections current_date) in
  let* _ := save_used_collections used_collections in
  let* _ := logging INFO UpdatedExclusionList in
  let* _ := handle_new_episodes_pinning w (libraries cfg) always_pin in
  let* _ := unpin_collections w (libraries cfg) always_pin in
  let* _ := logging INFO PinningNew in
  ret used_collections.

(** Step 4.1 (lines 415-425): reset the exclusion list, then [continue]. *)
Definition reset_exclusions (w : World) : M Pass :=
  if gui_instance w then
    let* _ := logging INFO ResettingExclusionList in
    let* _ := gui_reset_exclusion_list in
    let* used_collections := load_used_collections in
    ret (Restart used_collections)
  else
    let* _ := reset_exclusion_list_file in
    ret (Restart ∅).

(** Step 5 and the sleep (lines 427-440). *)
Definition record_and_sleep (w : World) (previous_pinned : list Collection)
    (used_collections : gmap string string) : M Pass :=
  let cfg := config w in
  let* used_collections :=
    match previous_pinned with
    | [] => let* _ := logging INFO NoNewPinned in ret used_collections
    | _ => log_and_update_exclusion_list w previous_pinned used_collections
             (default 3 (exclusion_days cfg))
    end in
  let secs := default 30 (pinning_interval cfg) * 60 in
  let* _ := logging INFO (Sleeping (secs / 60)) in
  let* _ := sleep secs in
  ret (Slept used_collections).

(** One pass through the body of [while not stop_event.is_set()]. *)
Definition cycle (w : World) (used_collections : gmap string string)
    (user_exemptions : list string) : M Pass :=
  let min_items := default 1 (minimum_items (config w)) in
  let* used_collections := begin_cycle w used_collections in
  let* (previous_pinned, reset_needed) :=
    pin_libraries w min_items used_collections user_exemptions
                  (libraries (config w)) [] in
  if reset_needed then reset_exclusions w
  else record_and_sleep w previous_pinned used_collections.

Definition stop_event_is_set (w : World) (st : State) : bool :=
  match stop_at w with
  | Some t => bool_decide (t ≤ elapsed st)
  | None => false
  end.

Inductive LoopEnd :=
  | Stopped     (* the loop condition was false *)
  | StillRunning. (* the passes allotted to the model were used up *)

(** [while not stop_event.is_set(): ...], at most [passes] passes. *)
Fixpoint main_loop (passes : nat) (w : World)
    (used_collections : gmap string string) (user_exemptions : list string)
  : M LoopEnd :=
  match passes with
  | O => λ st, (st, Return (if stop_event_is_set w st then Stopped
                            else StillRunning))
  | S passes' => λ st,
      if stop_event_is_set w st then (st, Return Stopped)
      else
        (let* pass := cycle w used_collections user_exemptions in
         match pass with
         | Restart used | Slept used =>
             main_loop passes' w used user_exemptions
         end) st
  end.

Inductive Exit :=
  | LoopExited
  | Crashed (e : Exn)
  | Running.

(** [main], from the loading of the persisted state (line 324) on. *)
Definition main (passes : nat) (w : World) (st : State) : State * Exit :=
  let '(st1, r) :=
    (let* used_collections := load_used_collections in
     let* user_exemptions := load_user_exemptions w in
     let* _ := logging INFO EnteringLoop in
     main_loop passes w used_collections user_exemptions) st in
  match r with
  | Return StillRunning => (st1, Running)
  | Return Stopped =>
      (fst (logging INFO ScriptTerminated st1), LoopExited)
  | Raise e =>
      (fst ((let* _ := logging ERROR (AnErrorOccurred e) in
             logging INFO ScriptTerminated) st1), Crashed e)
  end.

(** ** Notions used to state the properties *)

(** A library falls short of its quota in the pass running in state [st]:
    its listing and its time block resolve, and fewer collections are
    eligible than the limit the pass uses. *)
Definition short_of_quota (w : World) (min_items : Z)
    (used_collections : gmap string string) (user_exemptions : list string)
    (st : State) (library_name : string) : Prop :=
  ∃ collections current_block current_limit,
    assoc_get library_name (sections (plex w)) = Some (Return collections)
    ∧ snd (get_current_time_block w library_name st)
      = Return (current_block, current_limit)
    ∧ Z.of_nat (length (valid_collections collections min_items
                                          used_collections user_exemptions))
      < final_limit_of (config w) library_name current_block current_limit.

(** What a pass leaves alone unless it sleeps or writes the exclusion
    file. *)
Definition frame (st st' : State) : Prop :=
  elapsed st' = elapsed st
  ∧ used_collections_file st' = used_collections_file st.

(** The log only grows. *)
Definition log_grows (st st' : State) : Prop :=
  ∃ new, log st' = new ++ log st.

(** [m] moves every state to an [R]-related one, whether it returns or
    raises. *)
Definition respects (R : relation State) {A} (m : M A) : Prop :=
  ∀ st, R st (fst (m st)).

(** Relations that the log, the entropy counter and the remote calls do
    not break. *)
Class Primitive (R : relation State) := {
  primitive_preorder :: PreOrder R;
  primitive_logging lvl m st : R st (fst (logging lvl m st));
  primitive_consume k st : R st (fst (consume k st));
  primitive_remote w c st : R st (fst (remote w c st))
}.

Definition never_raises {A} (m : M A) : Prop :=
  ∀ st, ∃ a, snd (m st) = Return a.

(** The first collection of a listing that the special-case handler
    takes for 'New Episodes', and the remote calls toggling it. *)
Definition first_new_episodes (collections : list Collection)
  : option Collection :=
  head (filter is_new_episodes collections).

Definition toggle_calls (always_pin : bool) (c : Collection)
  : list RemoteCall :=
  [ Visibility (ratingKey c);
    Hub (ratingKey c) (if always_pin then promoteHome else demoteHome);
    Hub (ratingKey c) (if always_pin then promoteShared else demoteShared) ].

(** ** Concrete worlds

    A server with one library, ["Movies"], on Monday 2024-04-01 at 10:00,
    nothing persisted yet. *)

Definition movies : list Collection :=
  [ mkCollection 1 "A" 2; mkCollection 2 "B" 0; mkCollection 3 "C" 5 ].

(** A listing in which ["B"] is too small, ["C"] is excluded until May and
    ["D"] is exempt: with [min_items = 1] the eligible ones are ["A"] and
    ["E"]. *)
Definition catalogue : list Collection :=
  [ mkCollection 1 "A" 2; mkCollection 2 "B" 0; mkCollection 3 "C" 5;
    mkCollection 4 "D" 3; mkCollection 5 "E" 4 ].

Definition catalogue_exclusions : gmap string string :=
  {[ "C" := "2024-05-01" ]}.

Definition catalogue_exemptions : list string := [ "D" ].

(** Thirty collections alike but for their keys: more than [setsize], so
    [random.sample] takes its set loop. *)
Definition large_library : list Collection :=
  (λ n, mkCollection n "Film" 1) <$> seq 1 30.

Definition monday_morning : DateTime :=
  mkDateTime (mkDate 2024 4 1) 0 36000.

Definition initial_state : State := mkState Absent [] [] 0 0.

Definition reliable_plex (listing : list Collection) : Plex :=
  mkPlex [("Movies", Return listing)] (λ _ _, false).

(** No limit configured anywhere: the limit is 5, two collections are
    eligible. *)
Definition starved_world : World :=
  mkWorld (mkConfig ["Movies"] None None None None [] [])
          (reliable_plex movies) (λ n, n) monday_morning None false Absent.

(** [libraries_settings.Movies.default_limit = 2], the given interval in
    minutes, and the stop event set one second after the start. *)
Definition stopped_world (minutes : Z) : World :=
  mkWorld (mkConfig ["Movies"] None None None (Some minutes) []
                    [("Movies", mkLibrarySettings [] (Some 2))])
          (reliable_plex movies) (λ n, n) monday_morning (Some 1) false
          Absent.

(** [default_limits.Movies = 3], as the settings tab saves it, and four
    eligible collections. *)
Definition quota_world : World :=
  mkWorld (mkConfig ["Movies"] None None None None [("Movies", 3)] [])
          (reliable_plex [ mkCollection 1 "A" 2; mkCollection 2 "B" 1;
                           mkCollection 3 "C" 5; mkCollection 4 "D" 7 ])
          (λ n, n) monday_morning None false Absent.

(** Promoting collection 1 on the home page fails. *)
Definition flaky_world : World :=
  mkWorld (mkConfig ["Movies"] None None None None []
                    [("Movies", mkLibrarySettings [] (Some 2))])
          (mkPlex [("Movies", Return movies)]
                  (λ _ call, bool_decide (call = Hub 1 promoteHome)))
          (λ n, n) monday_morning None false Absent.

(** A library with two collections called 'New Episodes'. *)
Definition shows : list Collection :=
  [ mkCollection 7 "Drama" 4; mkCollection 8 "NEW Episodes" 9;
    mkCollection 9 "New Episodes" 3 ].

Definition shows_world : World :=
  mkWorld (mkConfig ["Movies"] None None (Some true) None [] [])
          (reliable_plex shows) (λ n, n) monday_morning None false Absent.

(** Three libraries: ["Movies"] has no 'New Episodes' collection, ["Shows"]
    has two, ["Music"] cannot be listed. *)
Definition three_libraries_world : World :=
  mkWorld (mkConfig ["Movies"; "Shows"; "Music"] None None (Some true) None
                    [] [])
          (mkPlex [("Movies", Return movies); ("Shows", Return shows);
                   ("Music", Raise RemoteError)] (λ _ _, false))
          (λ n, n) monday_morning None false Absent.

(** A library with a schedule: on Mondays two overlapping blocks and a
    third block without times. *)
Definition scheduled_world : World :=
  mkWorld (mkConfig ["Movies"] None None None None [("Movies", 4)]
             [("Movies",
               mkLibrarySettings
                 [("Monday",
                   Blocks [("Night", mkBlock (Some "00:00") (Some "06:00")
                                             (Some 1));
                           ("Morning", mkBlock (Some "06:00") (Some "12:00")
                                               (Some 2));
                           ("Day", mkBlock (Some "08:00") (Some "20:00")
                                           (Some 3));
                           ("Broken", mkBlock None None None)]);
                  ("Tuesday",
                   Blocks [("Broken", mkBlock None None None)])]
                 None)])
          (reliable_plex movies) (λ n, n) monday_morning None false Absent.

(** The remote calls only accumulate. *)
Definition calls_grow (st st' : State) : Prop :=
  ∃ new, calls st' = new ++ calls st.

(** The remote calls made between two states all satisfy [P]. *)
Definition calls_within (P : RemoteCall → Prop) (st st' : State) : Prop :=
  ∃ new, calls st' = new ++ calls st ∧ Forall P new.

(** A month and a day that exist in the calendar, whatever the year. *)
Definition calendar_day (d : Date) : Prop :=
  1 ≤ month d ≤ 12 ∧ 1 ≤ day d ≤ days_in_month (year d) (month d).

(** ** [sanitize_time_blocks] (source lines 45-65)

    The value stored under ["time_blocks"] is a dictionary of weekdays or
    anything else; the warnings logged are returned beside the result. *)

Inductive TimeBlocksValue :=
  | NotADictOfDays
  | Days (days : list (string * DayBlocks)).

Inductive SanitizeWarning :=
  | ExpectedDict
  | InvalidBlocksForDay (day : string).

Fixpoint sanitize_days (days : list (string * DayBlocks))
  : list (string * DayBlocks) * list SanitizeWarning :=
  match days with
  | [] => ([], [])
  | (day, blocks) :: rest =>
      let '(sanitized, warnings) := sanitize_days rest in
      match blocks with
      | NotADict =>
          ((day, Blocks []) :: sanitized, InvalidBlocksForDay day :: warnings)
      | Blocks _ => ((day, blocks) :: sanitized, warnings)
      end
  end.

Definition sanitize_time_blocks (time_blocks : TimeBlocksValue)
  : list (string * DayBlocks) * list SanitizeWarning :=
  match time_blocks with
  | NotADictOfDays => ([], [ExpectedDict])
  | Days days => sanitize_days days
  end.

(** A stored schedule whose Monday entry is a list instead of a dictionary
    of blocks, the server configured with it as it is, and with what
    [sanitize_time_blocks] makes of it. *)
Definition damaged_schedule : list (string * DayBlocks) :=
  [ ("Monday", NotADict);
    ("Tuesday", Blocks [("Day", mkBlock (Some "08:00") (Some "20:00")
                                        (Some 3))]) ].

Definition schedule_world (schedule : list (string * DayBlocks)) : World :=
  mkWorld (mkConfig ["Movies"] None None None None [("Movies", 4)]
             [("Movies", mkLibrarySettings schedule None)])
          (reliable_plex movies) (λ n, n) monday_morning None false Absent.

Definition sanitized_world : World :=
  schedule_world (fst (sanitize_time_blocks (Days damaged_schedule))).

(** ** The exclusion list tab (source lines 1348-1393)

    [exclusion_item] is the text [refresh_exclusion_list] shows for an
    entry, [item_collection_name] is [item_text.split(" (")[0]], the text
    before the first [" ("], and [remove_exclusion_list_item] is given the
    texts of the selected items. *)

Definition exclusion_item (collection_name expiration_date : string)
  : string :=
  collection_name +:+ " (Expires: " +:+ expiration_date +:+ ")".

Fixpoint item_collection_name (item_text : string) : string :=
  match item_text with
  | EmptyString => EmptyString
  | String a rest =>
      match rest with
      | String b _ =>
          if bool_decide (a = " "%char ∧ b = "("%char) then EmptyString
          else String a (item_collection_name rest)
      | EmptyString => String a EmptyString
      end
  end.

(** The items are listed here in the order of the keys; the list box shows
    them in the order of the file, which a [gmap] does not keep. *)
Definition refresh_exclusion_list : M (list string) :=
  let* _ := logging INFO RefreshingExclusionTab in
  let* used_collections := load_used_collections in
  ret ((λ kv, exclusion_item kv.1 kv.2) <$> map_to_list used_collections).

Definition remove_exclusion_list_item (selected_items : list string)
  : M unit :=
  match selected_items with
  | [] => ret tt
  | _ =>
      let* used_collections := load_used_collections in
      let used_collections :=
        foldl (λ used item_text, delete (item_collection_name item_text) used)
              used_collections selected_items in
      let* _ := save_used_collections used_collections in
      let* _ := refresh_exclusion_list in
      ret tt
  end.

(** * Verification

    ** Properties of [sample] *)

Section Sample.
Context {A : Type}.
Implicit Types pool : list A.

Lemma randbelow_lt rng i n : (0 < n)%nat → (randbelow rng i n < n)%nat.
Proof. intros Hn. unfold randbelow. apply Nat.mod_upper_bound. lia. Qed.

(** One draw: the pool is the drawn element plus the shrunk pool. *)
Lemma pool_draw pool j x y :
  pool !! j = Some x →
  pool !! (length pool - 1)%nat = Some y →
  pool ≡ₚ x :: take (length pool - 1) (<[j := y]> pool).
Proof.
  intros Hx Hy.
  destruct (decide (j = (length pool - 1)%nat)) as [->|Hne].
  - assert (x = y) by congruence. subst y.
    rewrite list_insert_id by done.
    rewrite <- (take_drop (length pool - 1) pool) at 1.
    rewrite (drop_S _ x _ Hx).
    rewrite drop_ge by lia.
    by rewrite Permutation_app_comm.
  - apply lookup_lt_Some in Hx as Hlt.
    rewrite take_insert_lt by lia.
    rewrite <- (take_drop (length pool - 1) pool) at 1.
    rewrite (drop_S _ y _ Hy), drop_ge by lia.
    assert (take (length pool - 1) pool !! j = Some x) as Hj.
    { rewrite lookup_take_lt by lia. done. }
    apply list_elem_of_split_length in Hj as (l1 & l2 & Heq & Hlen).
    rewrite Heq. subst j.
    rewrite insert_app_r_alt by lia.
    replace (length l1 - length l1)%nat with 0%nat by lia. simpl.
    solve_Permutation.
Qed.

Lemma sample_pool_length rng i k pool :
  (k ≤ length pool)%nat → length (sample_pool rng i k pool) = k.
Proof.
  revert i pool. induction k as [|k IH]; intros i pool Hk; [done|].
  simpl.
  assert (0 < length pool)%nat as Hpos by lia.
  pose proof (randbelow_lt rng i _ Hpos) as Hj.
  destruct (lookup_lt_is_Some_2 pool _ Hj) as [x ->].
  destruct (lookup_lt_is_Some_2 pool (length pool - 1)) as [y ->]; [lia|].
  simpl. f_equal. apply IH.
  rewrite length_take, length_insert. lia.
Qed.

(** The sample is a sub-multiset of the pool: positions never repeat. *)
Lemma sample_pool_perm rng i k pool :
  (k ≤ length pool)%nat →
  ∃ rest, pool ≡ₚ sample_pool rng i k pool ++ rest.
Proof.
  revert i pool. induction k as [|k IH]; intros i pool Hk.
  { exists pool. done. }
  simpl.
  assert (0 < length pool)%nat as Hpos by lia.
  pose proof (randbelow_lt rng i _ Hpos) as Hj.
  destruct (lookup_lt_is_Some_2 pool _ Hj) as [x Hx].
  destruct (lookup_lt_is_Some_2 pool (length pool - 1)) as [y Hy]; [lia|].
  rewrite Hx, Hy.
  destruct (IH (S i) (take (length pool - 1)
                        (<[randbelow rng i (length pool) := y]> pool)))
    as [rest Hrest].
  { rewrite length_take, length_insert. lia. }
  exists rest. simpl. rewrite <- Hrest. by apply pool_draw.
Qed.
(** The set loop: every pick is at an index not picked before. *)
Lemma free_indices_spec n selected j :
  j ∈ free_indices n selected ↔ (j < n)%nat ∧ j ∉ selected.
Proof.
  unfold free_indices. rewrite list_elem_of_filter, elem_of_seq.
  split; intros [??]; split; (done || lia).
Qed.

Lemma free_indices_nonempty n selected :
  (length selected < n)%nat → (0 < length (free_indices n selected))%nat.
Proof.
  intros Hlen. destruct (free_indices n selected) as [|j free] eqn:Hfree;
    [|simpl; lia].
  exfalso.
  assert (seq 0 n ⊆+ selected) as Hsub.
  { apply NoDup_submseteq; [apply NoDup_seq|]. intros j Hj.
    destruct (decide (j ∈ selected)) as [|Hn]; [done|].
    assert (j ∈ free_indices n selected) as Hin.
    { apply free_indices_spec. apply elem_of_seq in Hj. split; [lia|done]. }
    rewrite Hfree in Hin. by apply elem_of_nil in Hin. }
  apply submseteq_length in Hsub. rewrite length_seq in Hsub. lia.
Qed.

Lemma redraw_fresh rng i n selected :
  (length selected < n)%nat →
  (redraw rng i n selected < n)%nat ∧ redraw rng i n selected ∉ selected.
Proof.
  intros Hlen. unfold redraw.
  pose proof (free_indices_nonempty n selected Hlen) as Hpos.
  pose proof (randbelow_lt rng i _ Hpos) as Hlt.
  destruct (lookup_lt_is_Some_2 _ _ Hlt) as [j Hj]. rewrite Hj. simpl.
  apply list_elem_of_lookup_2 in Hj. by apply free_indices_spec in Hj.
Qed.

Lemma sample_set_indices rng i k (population : list A) selected :
  (k + length selected ≤ length population)%nat →
  ∃ js, length js = k
        ∧ NoDup js
        ∧ (∀ j, j ∈ js → j ∉ selected)
        ∧ Forall2 (λ j x, population !! j = Some x) js
                  (sample_set rng i k population selected).
Proof.
  revert i selected. induction k as [|k IH]; intros i selected Hk.
  { exists []. split_and!; [done|constructor| |constructor].
    intros j Hj. by apply elem_of_nil in Hj. }
  cbn [sample_set].
  set (j := if decide (randbelow rng i (length population) ∈ selected)
            then redraw rng i (length population) selected
            else randbelow rng i (length population)).
  assert ((j < length population)%nat ∧ j ∉ selected) as [Hjn Hjsel].
  { subst j. case_decide as Hin.
    - apply redraw_fresh. lia.
    - split; [|done]. apply randbelow_lt. lia. }
  destruct (lookup_lt_is_Some_2 population j Hjn) as [x Hx]. rewrite Hx.
  destruct (IH (S i) (j :: selected)) as (js & Hlen & Hnd & Hnot & Hall).
  { simpl. lia. }
  exists (j :: js). split_and!.
  - simpl. by rewrite Hlen.
  - constructor; [|done]. intros Hin. apply Hnot in Hin.
    apply Hin. by left.
  - intros j' [->|Hin]%elem_of_cons; [done|].
    apply Hnot in Hin. intros ?. apply Hin. by right.
  - by constructor.
Qed.

Lemma lookups_at_positions (pre l : list A) :
  omap (λ j, (pre ++ l) !! j) (seq (length pre) (length l)) = l.
Proof.
  revert pre. induction l as [|x l IH]; intros pre; [done|].
  simpl. rewrite list_lookup_middle by done. f_equal.
  specialize (IH (pre ++ [x])).
  rewrite length_app, <- app_assoc in IH. simpl in IH.
  by replace (length pre + 1)%nat with (S (length pre)) in IH by lia.
Qed.

(** Elements read at pairwise distinct positions are a sub-multiset. *)
Lemma distinct_positions_perm (population l : list A) (js : list nat) :
  NoDup js →
  Forall2 (λ j x, population !! j = Some x) js l →
  ∃ rest, population ≡ₚ l ++ rest.
Proof.
  intros Hnd Hall.
  assert (js ⊆+ seq 0 (length population)) as Hsub.
  { apply NoDup_submseteq; [done|]. intros j Hj.
    apply list_elem_of_lookup_1 in Hj as [n Hn].
    destruct (Forall2_lookup_l _ _ _ _ _ Hall Hn) as (x & _ & Hx).
    apply lookup_lt_Some in Hx. apply elem_of_seq. lia. }
  apply submseteq_Permutation in Hsub as [others Hothers].
  exists (omap (λ j, population !! j) others).
  pose proof (lookups_at_positions [] population) as Hpop. simpl in Hpop.
  assert (omap (λ j, population !! j) js = l) as Hjs.
  { clear -Hall. induction Hall as [|j x js l Hx _ IH]; [done|].
    simpl. rewrite Hx. simpl. by f_equal. }
  rewrite <- Hpop at 1. by rewrite Hothers, omap_app, Hjs.
Qed.

Lemma sample_set_length rng i k (population : list A) :
  (k ≤ length population)%nat →
  length (sample_set rng i k population []) = k.
Proof.
  intros Hk.
  destruct (sample_set_indices rng i k population []) as (js & Hlen & _ & _ & H).
  { simpl. lia. }
  apply Forall2_length in H. lia.
Qed.

Lemma sample_set_perm rng i k (population : list A) :
  (k ≤ length population)%nat →
  ∃ rest, population ≡ₚ sample_set rng i k population [] ++ rest.
Proof.
  intros Hk.
  destruct (sample_set_indices rng i k population []) as (js & _ & Hnd & _ & H).
  { simpl. lia. }
  by eapply distinct_positions_perm.
Qed.

(** Whichever loop runs, [sample] returns [k] elements read at distinct
    positions of the population. *)
Lemma sample_returns rng i (population : list A) (k : Z) :
  0 ≤ k ≤ Z.of_nat (length population) →
  ∃ l, sample rng i population k = Return l
       ∧ Z.of_nat (length l) = k
       ∧ ∃ rest, population ≡ₚ l ++ rest.
Proof.
  intros Hk. unfold sample. rewrite decide_True by lia.
  eexists. split; [done|]. case_decide.
  - rewrite sample_pool_length by lia. split; [lia|].
    apply sample_pool_perm. lia.
  - rewrite sample_set_length by lia. split; [lia|].
    apply sample_set_perm. lia.
Qed.

Lemma sample_raises rng i (population : list A) (k : Z) :
  ¬ (0 ≤ k ≤ Z.of_nat (length population)) →
  sample rng i population k = Raise ValueError.
Proof. intros Hk. unfold sample. by rewrite decide_False. Qed.
End Sample.

(** ** The selection step *)

Lemma valid_collections_spec collections min_items used exemptions c :
  c ∈ valid_collections collections min_items used exemptions
  ↔ c ∈ collections ∧ is_valid min_items used exemptions c.
Proof. unfold valid_collections. rewrite list_elem_of_filter. tauto. Qed.

Lemma select_picked rng i collections Q min_items used exemptions l :
  select rng i collections Q min_items used exemptions = Picked l →
  Z.of_nat (length l)
  = Z.min (Z.of_nat (length (valid_collections collections min_items used
                                                exemptions))) Q
  ∧ ∃ rest, valid_collections collections min_items used exemptions
            ≡ₚ l ++ rest.
Proof.
  unfold select.
  set (E := valid_collections collections min_items used exemptions).
  intros H.
  destruct (decide (Z.of_nat (length E) < Q)); [done|].
  destruct E as [|c E'] eqn:HE; [done|]. rewrite <- HE in *.
  destruct (decide (0 ≤ Z.min (Z.of_nat (length E)) Q
                    ≤ Z.of_nat (length E))) as [Hk|Hk].
  - destruct (sample_returns rng i E _ Hk) as (l' & Hl' & Hlen & Hperm).
    rewrite Hl' in H. by injection H as <-.
  - by rewrite sample_raises in H.
Qed.

Lemma select_to_pin_perm rng i collections Q min_items used exemptions :
  ∃ rest, valid_collections collections min_items used exemptions
          ≡ₚ collections_to_pin
               (select rng i collections Q min_items used exemptions) ++ rest.
Proof.
  destruct (select rng i collections Q min_items used exemptions) eqn:Hs;
    simpl; try by eexists.
  by apply select_picked in Hs as [_ ?].
Qed.

Lemma select_to_pin_valid rng i collections Q min_items used exemptions c :
  c ∈ collections_to_pin (select rng i collections Q min_items used exemptions)
  → c ∈ collections ∧ is_valid min_items used exemptions c.
Proof.
  intros Hc.
  destruct (select_to_pin_perm rng i collections Q min_items used exemptions)
    as [rest Hperm].
  apply valid_collections_spec. rewrite Hperm. set_solver.
Qed.


(** With a quota between 0 and the number of valid collections the step
    picks that many, unless the quota is 0 and nothing is valid. *)
Lemma select_within rng i collections Q min_items used exemptions :
  0 ≤ Q ≤ Z.of_nat (length (valid_collections collections min_items used
                                               exemptions)) →
  let s := select rng i collections Q min_items used exemptions in
  reset_signalled s = false
  ∧ Z.of_nat (length (collections_to_pin s)) = Q.
Proof.
  intros HQ. unfold select.
  set (E := valid_collections collections min_items used exemptions) in *.
  destruct (decide (Z.of_nat (length E) < Q)); [lia|].
  destruct (sample_returns rng i E (Z.min (Z.of_nat (length E)) Q))
    as (l & Hl & Hlen & _); [lia|].
  destruct E as [|c E']; [simpl in *; split; [done|lia]|].
  rewrite Hl. simpl. split; [done|lia].
Qed.


(** C2. No collection picked by the selection step has its title in the
    exclusion map or in the exemption list given to that call; the statement
    ranges over every collection list, hence over every ordering of one. *)
Theorem select_avoids_excluded (rng : Rng) (i : nat)
    (collections : list Collection) (Q min_items : Z)
    (used : gmap string string) (exemptions : list string) :
  Forall (λ c, (title c ∉ dom used) ∧ (title c ∉ exemptions))
         (collections_to_pin
            (select rng i collections Q min_items used exemptions)).
Proof.
  apply Forall_forall. intros c Hc.
  apply select_to_pin_valid in Hc as [_ (_ & Hused & Hex)].
  split; [|done]. by apply not_elem_of_dom.
Qed.

(** ** Cleaning the exclusion map *)

Lemma clean_well_formed (M : gmap string string) (D : Date) :
  map_Forall (λ _ v, parses v) M →
  clean M D = Return (filter (λ kv, expires_after D kv.2) M).
Proof. intros H. unfold clean. by rewrite decide_True. Qed.

(** C3. For every cooldown map [M] whose values are dates in the persisted
    ["YYYY-MM-DD"] form and every date [D], [clean M D] returns exactly the
    entries of [M] whose expiry date is strictly after [D], and cleaning the
    result again with the same [D] returns it unchanged. *)
Theorem clean_exact_idempotent (M : gmap string string) (D : Date) :
  map_Forall (λ _ v, parses v) M →
  ∃ M', clean M D = Return M'
        ∧ (∀ t v, M' !! t = Some v
                  ↔ M !! t = Some v
                    ∧ ∃ d, strptime_ymd v = Some d ∧ date_lt D d)
        ∧ clean M' D = Return M'.
Proof.
  intros Hwf. exists (filter (λ kv, expires_after D kv.2) M).
  split_and!.
  - by apply clean_well_formed.
  - intros t v. rewrite map_lookup_filter_Some. simpl.
    unfold expires_after. split.
    + intros [Hl Hd]. split; [done|].
      destruct (strptime_ymd v) as [d|]; [|done]. by exists d.
    + intros [Hl (d & -> & Hd)]. done.
  - rewrite clean_well_formed.
    + f_equal. apply map_filter_id. intros t v.
      rewrite map_lookup_filter_Some. by intros [_ ?].
    + intros t v. rewrite map_lookup_filter_Some. intros [Hl _].
      by apply (Hwf t v).
Qed.

(** ** Reasoning about the monad *)

Global Instance frame_preorder : PreOrder frame.
Proof.
  split.
  - by intros st.
  - intros st1 st2 st3 [??] [??]. split; congruence.
Qed.

Global Instance frame_primitive : Primitive frame.
Proof.
  split; [apply _|by split..|].
  intros w c st. unfold remote. by destruct (raises _ _ _).
Qed.

Global Instance log_grows_preorder : PreOrder log_grows.
Proof.
  split.
  - intros st. by exists [].
  - intros st1 st2 st3 [n1 H1] [n2 H2]. exists (n2 ++ n1).
    by rewrite H2, H1, app_assoc.
Qed.

Global Instance log_grows_primitive : Primitive log_grows.
Proof.
  split; [apply _| | |].
  - intros lvl m st. by exists [(lvl, m)].
  - intros k st. by exists [].
  - intros w c st. unfold remote. destruct (raises _ _ _); by exists [].
Qed.

Section Respects.
Context (R : relation State) `{!Primitive R}.

Lemma respects_ret {A} (a : A) : respects R (ret a).
Proof. by intros st. Qed.

Lemma respects_raise {A} e : respects R (@raise A e).
Proof. by intros st. Qed.

Lemma respects_lift {A} (r : Result A) : respects R (lift r).
Proof. by intros st. Qed.

Lemma respects_get_state : respects R get_state.
Proof. by intros st. Qed.

Lemma respects_logging lvl m : respects R (logging lvl m).
Proof. intros st. apply primitive_logging. Qed.

Lemma respects_consume k : respects R (consume k).
Proof. intros st. apply primitive_consume. Qed.

Lemma respects_remote w c : respects R (remote w c).
Proof. intros st. apply primitive_remote. Qed.

Lemma respects_bind {A B} (m : M A) (k : A → M B) :
  respects R m → (∀ a, respects R (k a)) → respects R (bindM m k).
Proof.
  intros Hm Hk st. unfold bindM. specialize (Hm st).
  destruct (m st) as [st' [a|e]]; simpl in *; [|done].
  etrans; [done|]. apply Hk.
Qed.

Lemma respects_try {A} (m : M A) (h : Exn → M A) :
  respects R m → (∀ e, respects R (h e)) → respects R (try_except m h).
Proof.
  intros Hm Hh st. unfold try_except. specialize (Hm st).
  destruct (m st) as [st' [a|e]]; simpl in *; [done|].
  etrans; [done|]. apply Hh.
Qed.

Lemma respects_for_each {A} (l : list A) (body : A → M unit) :
  (∀ x, respects R (body x)) → respects R (for_each l body).
Proof.
  intros Hb. induction l as [|x l IH]; simpl.
  - apply respects_ret.
  - apply respects_bind; [apply Hb|]. by intros _.
Qed.

Lemma respects_section w name : respects R (section w name).
Proof.
  unfold section.
  destruct (assoc_get _ _); [apply respects_lift|apply respects_raise].
Qed.

Ltac respects := repeat (first
  [ match goal with H : _ |- respects _ _ => apply H end
  | progress cbv zeta
  | apply respects_ret | apply respects_raise | apply respects_lift
  | apply respects_get_state | apply respects_logging
  | apply respects_consume | apply respects_remote | apply respects_section
  | apply respects_bind; [|intros ?]
  | apply respects_try; [|intros ?]
  | apply respects_for_each; intros ?
  | match goal with
    | |- respects _ (match ?x with _ => _ end) => destruct x
    | |- respects _ (if ?x then _ else _) => destruct x
    end ]).

Lemma respects_promote w c : respects R (promote w c).
Proof. unfold promote. respects. Qed.

Lemma respects_demote w c : respects R (demote w c).
Proof. unfold demote. respects. Qed.

Lemma respects_toggle_new_episodes w flag name cs :
  respects R (toggle_new_episodes w flag name cs).
Proof.
  induction cs as [|c cs IH]; simpl; respects.
Qed.

Lemma respects_handle_new_episodes_pinning w libs flag :
  respects R (handle_new_episodes_pinning w libs flag).
Proof.
  unfold handle_new_episodes_pinning, handle_new_episodes_library.
  respects. apply respects_toggle_new_episodes.
Qed.

Lemma respects_unpin_collections w libs flag :
  respects R (unpin_collections w libs flag).
Proof.
  unfold unpin_collections, unpin_collection. respects.
Qed.

Lemma respects_pin_collections w to_pin pp :
  respects R (pin_collections w to_pin pp).
Proof.
  revert pp. induction to_pin as [|c l IH]; intros pp; simpl; respects.
Qed.

Lemma respects_get_current_time_block w name :
  respects R (get_current_time_block w name).
Proof. unfold get_current_time_block. respects. Qed.

Lemma respects_process_library w m u e name pp :
  respects R (process_library w m u e name pp).
Proof.
  pose proof respects_get_current_time_block.
  pose proof respects_pin_collections.
  unfold process_library. respects.
Qed.

Lemma respects_pin_libraries w m u e libs pp :
  respects R (pin_libraries w m u e libs pp).
Proof.
  pose proof respects_process_library.
  revert pp. induction libs as [|name libs IH]; intros pp; simpl; respects.
Qed.

End Respects.

(** ** One library of the selection loop *)

Lemma resolved_elapsed w name st st' :
  elapsed st' = elapsed st →
  snd (get_current_time_block w name st') = snd (get_current_time_block w name st).
Proof.
  intros He. unfold get_current_time_block, bindM, get_state, now. rewrite He.
  destruct (default _ _); [done|]. done.
Qed.

Lemma pin_collections_never_raises w to_pin pp : never_raises (pin_collections w to_pin pp).
Proof.
  revert pp. induction to_pin as [|c l IH]; intros pp st; simpl.
  - by eexists.
  - unfold bindM, try_except.
    destruct (promote w c st) as [st1 [[]|e]]; simpl; apply IH.
Qed.

Lemma select_insufficient rng i cs Q m u ex :
  select rng i cs Q m u ex = Insufficient
  ↔ Z.of_nat (length (valid_collections cs m u ex)) < Q.
Proof.
  unfold select. case_decide as H; [done|].
  split; [|done].
  destruct (valid_collections cs m u ex); [done|].
  by destruct (sample _ _ _ _).
Qed.

Lemma process_library_outcome w m u ex name pp st :
  ∃ st' pp' b,
    process_library w m u ex name pp st = (st', Return (pp', b))
    ∧ frame st st'
    ∧ (b = true ↔ short_of_quota w m u ex st name)
    ∧ (b = true → pp' = pp).
Proof.
  pose proof (respects_process_library frame w m u ex name pp st) as Hframe.
  cut (∃ st' pp' b,
    process_library w m u ex name pp st = (st', Return (pp', b))
    ∧ (b = true ↔ short_of_quota w m u ex st name)
    ∧ (b = true → pp' = pp)).
  { intros (st' & pp' & b & Heq & H1 & H2). exists st', pp', b.
    rewrite Heq in Hframe. done. }
  clear Hframe.
  unfold short_of_quota, process_library, try_except.
  unfold bindM at 1. cbn [logging].
  set (st1 := mkState _ _ (_ :: log st) _ _).
  assert (elapsed st1 = elapsed st) as He1 by done.
  unfold bindM at 1. unfold section.
  destruct (assoc_get name (sections (plex w))) as [[cs|e]|] eqn:Hsec;
    cbn [lift raise];
    [|eexists _, _, false; split; [done|]; split; [|done];
      split; [done|]; intros (?&?&?&?&?); congruence ..].
  unfold bindM at 1.
  rewrite <- (resolved_elapsed w name st st1 He1).
  destruct (get_current_time_block w name st1) as [st2 [[blk lim]|e]];
    cbn [snd];
    [|eexists _, _, false; split; [done|]; split; [|done];
      split; [done|]; intros (?&?&?&?&?&?); congruence].
  unfold bindM at 1. cbn [logging].
  unfold bindM at 1. cbn [get_state draws].
  destruct (select _ _ cs _ m u ex) as [| |to_pin|e] eqn:Hsel.
  - eexists _, _, true. split; [done|]. split; [|done]. split; [|done].
    intros _. exists cs, blk, lim. split_and!; [done..|].
    by apply select_insufficient in Hsel.
  - eexists _, _, false. split; [done|]. split; [|done]. split; [done|].
    intros (cs' & blk' & lim' & [= <-] & [= <- <-] & Hlt).
    by rewrite (proj2 (select_insufficient _ _ _ _ _ _ _) Hlt) in Hsel.
  - unfold bindM at 1. cbn [consume].
    unfold bindM at 1. cbn [logging].
    unfold bindM at 1. cbn [logging].
    unfold bindM at 1.
    match goal with |- context [pin_collections w to_pin pp ?s] =>
      destruct (pin_collections_never_raises w to_pin pp s) as [pp' Hpin];
      destruct (pin_collections w to_pin pp s) as [st5 r] end.
    simpl in Hpin. subst r. cbn [ret].
    eexists _, _, false. split; [done|]. split; [|done]. split; [done|].
    intros (cs' & blk' & lim' & [= <-] & [= <- <-] & Hlt).
    by rewrite (proj2 (select_insufficient _ _ _ _ _ _ _) Hlt) in Hsel.
  - cbn [raise].
    eexists _, _, false. split; [done|]. split; [|done]. split; [done|].
    intros (cs' & blk' & lim' & [= <-] & [= <- <-] & Hlt).
    by rewrite (proj2 (select_insufficient _ _ _ _ _ _ _) Hlt) in Hsel.
Qed.

(** ** The loop over the libraries *)

Lemma short_of_quota_elapsed w m u ex st st' name :
  elapsed st' = elapsed st →
  short_of_quota w m u ex st' name ↔ short_of_quota w m u ex st name.
Proof.
  intros He. unfold short_of_quota.
  by rewrite (resolved_elapsed w name st st' He).
Qed.


(** The first library short of its quota ends the loop: what follows it in
    the list is not looked at. *)
Lemma pin_libraries_first_short w m u ex before name after pp st :
  Forall (λ n, ¬ short_of_quota w m u ex st n) before →
  short_of_quota w m u ex st name →
  ∃ st' pp', pin_libraries w m u ex (before ++ name :: after) pp st
             = (st', Return (pp', true))
             ∧ pin_libraries w m u ex (before ++ [name]) pp st
               = (st', Return (pp', true))
             ∧ frame st st'.
Proof.
  revert pp st. induction before as [|n before IH]; intros pp st Hall Hshort.
  - simpl.
    destruct (process_library_outcome w m u ex name pp st)
      as (st1 & pp1 & b & Heq & Hfr & Hb & _).
    unfold bindM. rewrite Heq.
    destruct b; [|by apply Hb in Hshort]. by exists st1, pp1.
  - apply Forall_cons in Hall as [Hn Hall]. simpl.
    destruct (process_library_outcome w m u ex n pp st)
      as (st1 & pp1 & b & Heq & Hfr & Hb & _).
    unfold bindM. rewrite Heq.
    destruct b; [by destruct Hn; apply Hb|].
    destruct (IH pp1 st1) as (st' & pp' & Heq1 & Heq2 & Hfr').
    { eapply Forall_impl; [exact Hall|]. intros n' Hn'.
      by rewrite (short_of_quota_elapsed _ _ _ _ st st1) by apply Hfr. }
    { by rewrite (short_of_quota_elapsed _ _ _ _ st st1) by apply Hfr. }
    exists st', pp'. split_and!; [done..|]. by etrans.
Qed.

(** Some library short of its quota: there is a first one. *)
Lemma first_short_library w m u ex st libs :
  (∃ name, name ∈ libs ∧ short_of_quota w m u ex st name) →
  ∃ before name after,
    libs = before ++ name :: after
    ∧ Forall (λ n, ¬ short_of_quota w m u ex st n) before
    ∧ short_of_quota w m u ex st name.
Proof.
  induction libs as [|n libs IH]; intros (name & Hin & Hshort).
  { by apply elem_of_nil in Hin. }
  destruct (process_library_outcome w m u ex n [] st)
    as (st1 & pp1 & b & _ & _ & Hb & _).
  destruct b.
  - exists [], n, libs. split_and!; [done|constructor|by apply Hb].
  - assert (¬ short_of_quota w m u ex st n) as Hn.
    { intros H. by apply Hb in H. }
    apply elem_of_cons in Hin as [->|Hin]; [done|].
    destruct IH as (before & name' & after & -> & Hall & Hshort').
    { by exists name. }
    exists (n :: before), name', after. split_and!; [done| |done].
    by constructor.
Qed.

(** ** The phases of a pass *)

Lemma never_raises_ret {A} (a : A) : never_raises (ret a).
Proof. intros st. by eexists. Qed.

Lemma never_raises_logging lvl m : never_raises (logging lvl m).
Proof. intros st. by eexists. Qed.

Lemma never_raises_bind {A B} (m : M A) (k : A → M B) :
  never_raises m → (∀ a, never_raises (k a)) → never_raises (bindM m k).
Proof.
  intros Hm Hk st. unfold bindM. destruct (Hm st) as [a Ha].
  destruct (m st) as [st' r]. simpl in Ha. subst r. apply Hk.
Qed.

Lemma never_raises_try {A} (m : M A) (h : Exn → M A) :
  (∀ e, never_raises (h e)) → never_raises (try_except m h).
Proof.
  intros Hh st. unfold try_except.
  destruct (m st) as [st' [a|e]]; [by eexists|apply Hh].
Qed.

Lemma never_raises_for_each {A} (l : list A) (body : A → M unit) :
  (∀ x, never_raises (body x)) → never_raises (for_each l body).
Proof.
  intros Hb. induction l as [|x l IH]; simpl.
  - apply never_raises_ret.
  - apply never_raises_bind; [apply Hb|]. by intros _.
Qed.

Lemma never_raises_handle_new_episodes_pinning w libs flag :
  never_raises (handle_new_episodes_pinning w libs flag).
Proof.
  apply never_raises_bind; [apply never_raises_logging|]. intros _.
  apply never_raises_for_each. intros name.
  apply never_raises_try. intros e. apply never_raises_logging.
Qed.

Lemma never_raises_unpin_collections w libs flag :
  never_raises (unpin_collections w libs flag).
Proof.
  apply never_raises_bind; [apply never_raises_logging|]. intros _.
  apply never_raises_for_each. intros name.
  apply never_raises_try. intros e. apply never_raises_logging.
Qed.

(** Running a computation that neither raises nor touches the frame. *)
Lemma run_safe {A} (m : M A) st :
  respects frame m → never_raises m →
  ∃ st' a, m st = (st', Return a) ∧ frame st st'.
Proof.
  intros Hk Hn. specialize (Hk st). destruct (Hn st) as [a Ha].
  destruct (m st) as [st' r]. simpl in *. subst r. by exists st', a.
Qed.

(** ** The phases of a pass *)

Lemma begin_cycle_returns w used st used1 :
  clean used (date (now w st)) = Return used1 →
  ∃ st1, begin_cycle w used st = (st1, Return used1)
         ∧ elapsed st1 = elapsed st
         ∧ used_collections_file st1 = Content used1.
Proof.
  intros Hclean. unfold begin_cycle.
  unfold bindM at 1. cbn [get_state].
  unfold bindM at 1. cbn [logging].
  unfold bindM at 1. rewrite Hclean. cbn [lift].
  unfold bindM at 1. unfold save_used_collections.
  unfold bindM at 1. cbn [write_used_collections logging].
  unfold bindM at 1. cbn [logging].
  match goal with |- context [bindM _ _ ?s] => set (st0 := s) end.
  destruct (run_safe (handle_new_episodes_pinning w (libraries (config w))
              (default false (always_pin_new_episodes (config w)))) st0)
    as (st1 & [] & Heq1 & Hfr1);
    [apply (respects_handle_new_episodes_pinning frame)
    |apply never_raises_handle_new_episodes_pinning|].
  unfold bindM at 1. rewrite Heq1.
  destruct (run_safe (unpin_collections w (libraries (config w))
              (default false (always_pin_new_episodes (config w)))) st1)
    as (st2 & [] & Heq2 & Hfr2);
    [apply (respects_unpin_collections frame)|apply never_raises_unpin_collections|].
  unfold bindM at 1. rewrite Heq2.
  unfold bindM. cbn [logging ret].
  eexists. split; [done|]. cbn [elapsed used_collections_file].
  destruct Hfr1 as [E1 F1], Hfr2 as [E2 F2]. rewrite E2, E1, F2, F1. done.
Qed.

Lemma begin_cycle_raises w used st e :
  clean used (date (now w st)) = Raise e →
  ∃ st1, begin_cycle w used st = (st1, Raise e) ∧ elapsed st1 = elapsed st.
Proof.
  intros Hclean. unfold begin_cycle.
  unfold bindM at 1. cbn [get_state].
  unfold bindM at 1. cbn [logging].
  unfold bindM at 1. rewrite Hclean. cbn [lift].
  by eexists.
Qed.

Lemma reset_exclusions_outcome w st :
  ∃ st', reset_exclusions w st = (st', Return (Restart ∅))
         ∧ elapsed st' = elapsed st
         ∧ used_collections_file st' = Content ∅.
Proof.
  unfold reset_exclusions. destruct (gui_instance w); by eexists.
Qed.

Lemma record_pinned_outcome D days pp used st :
  (∀ d, date_add D days = Return d →
     ∃ st' used', record_pinned D days pp used st = (st', Return used')
                  ∧ frame st st'
                  ∧ dom used' = dom used ∪ list_to_set (title <$> pp)
                  ∧ ∀ t, t ∉ title <$> pp → used' !! t = used !! t)
  ∧ (∀ e, date_add D days = Raise e →
       pp = [] ∨ record_pinned D days pp used st = (st, Raise e)).
Proof.
  split.
  - intros d Hd. revert used st. induction pp as [|c pp IH]; intros used st.
    + exists st, used. split_and!; [done|reflexivity| |done].
      simpl. by rewrite (right_id_L ∅ (∪)).
    + simpl. unfold bindM at 1. rewrite Hd. cbn [lift].
      unfold bindM at 1. cbn [logging].
      match goal with |- context [record_pinned _ _ _ ?u ?s] =>
        destruct (IH u s) as (st' & used' & Heq & Hfr & Hdom & Hother) end.
      exists st', used'. split_and!; [done|by destruct Hfr| |].
      * rewrite Hdom, dom_insert_L.
        by rewrite (comm_L (∪) {[title c]} (dom used)), (assoc_L (∪)).
      * intros t Ht. apply not_elem_of_cons in Ht as [Hne Ht]. rewrite Hother by done.
        by apply lookup_insert_ne.
  - intros e He. destruct pp as [|c pp]; [by left|right].
    simpl. unfold bindM. by rewrite He.
Qed.

Lemma record_and_sleep_outcome w pp used st :
  ∃ st' r, record_and_sleep w pp used st = (st', r)
    ∧ match r with
      | Return (Restart _) => False
      | Return (Slept _) =>
          elapsed st' = elapsed st + default 30 (pinning_interval (config w)) * 60
      | Raise _ => True
      end.
Proof.
  unfold record_and_sleep.
  assert (∃ st1 r1,
    match pp with
    | [] => let* _ := logging INFO NoNewPinned in ret used
    | _ :: _ => log_and_update_exclusion_list w pp used
                  (default 3 (exclusion_days (config w)))
    end st = (st1, r1) ∧ elapsed st1 = elapsed st) as (st1 & r1 & Heq & He).
  { destruct pp as [|c pp']; [by eexists _, _|].
    set (pp := c :: pp').
    unfold log_and_update_exclusion_list.
    unfold bindM at 1. cbn [get_state].
    destruct (date_add (date (now w st))
                (default 3 (exclusion_days (config w)))) as [d|e] eqn:Hd.
    - destruct (record_pinned_outcome (date (now w st))
                  (default 3 (exclusion_days (config w))) pp used st)
        as [H _].
      destruct (H d Hd) as (st' & used' & Heq & Hfr & _).
      unfold bindM at 1. rewrite Heq.
      eexists _, _. split; [done|]. simpl. apply Hfr.
    - destruct (record_pinned_outcome (date (now w st))
                  (default 3 (exclusion_days (config w))) pp used st)
        as [_ H].
      destruct (H e Hd) as [?|Heq]; [done|].
      unfold bindM at 1. rewrite Heq. by eexists _, _. }
  unfold bindM at 1. rewrite Heq.
  destruct r1 as [used1|e]; [|by eexists _, _].
  unfold bindM at 1. cbn [logging].
  unfold bindM at 1. unfold sleep. cbn [elapsed].
  destruct (_ <? 0); [by eexists _, _|].
  eexists _, _. split; [done|]. simpl. by rewrite He.
Qed.

(** ** The loop *)

Lemma main_loop_stopped passes w used ex st :
  stop_event_is_set w st = true →
  main_loop passes w used ex st = (st, Return Stopped).
Proof. intros H. destruct passes; simpl; by rewrite H. Qed.

Lemma main_loop_pass passes w used ex st st' pass :
  stop_event_is_set w st = false →
  cycle w used ex st = (st', Return pass) →
  main_loop (S passes) w used ex st
  = main_loop passes w
      match pass with Restart u | Slept u => u end ex st'.
Proof.
  intros Hstop Hcycle. simpl. rewrite Hstop. unfold bindM.
  rewrite Hcycle. by destruct pass.
Qed.

(** Some library short of its quota: the pass ends in the reset branch,
    having stopped the selection loop at the first such library. *)
Lemma short_library_restarts w used ex st used1 :
  clean used (date (now w st)) = Return used1 →
  (∃ name, name ∈ libraries (config w)
           ∧ short_of_quota w (default 1 (minimum_items (config w)))
                            used1 ex st name) →
  ∃ st', cycle w used ex st = (st', Return (Restart ∅))
         ∧ used_collections_file st' = Content ∅
         ∧ elapsed st' = elapsed st.
Proof.
  intros Hclean Hshort.
  destruct (first_short_library _ _ _ _ _ _ Hshort)
    as (before & name & after & Hlibs & Hbefore & Hname).
  destruct (begin_cycle_returns w used st used1 Hclean)
    as (st1 & Hbegin & He1 & _).
  destruct (pin_libraries_first_short w
              (default 1 (minimum_items (config w))) used1 ex
              before name after [] st1)
    as (st2 & pp2 & Hpin & _ & Hfr2).
  { eapply Forall_impl; [exact Hbefore|]. intros n Hn.
    by rewrite (short_of_quota_elapsed _ _ _ _ st st1). }
  { by rewrite (short_of_quota_elapsed _ _ _ _ st st1). }
  destruct (reset_exclusions_outcome w st2) as (st' & Hreset & He' & Hfile).
  exists st'. split_and!; [|done|].
  - unfold cycle. unfold bindM at 1. rewrite Hbegin.
    unfold bindM at 1. rewrite Hlibs, Hpin. done.
  - rewrite He'. destruct Hfr2 as [-> _]. done.
Qed.

(** C4. In a pass that gets past the cleaning step, if some configured
    library has fewer eligible collections than its quota, then the pass
    ends in the reset branch: the exclusion map is empty afterwards, in
    memory and in the persisted file, no time was spent sleeping, and the
    loop goes on with the next pass at once; the selection loop stopped at
    the first such library, so that its outcome is that of the library list
    cut after it. *)
Theorem insufficient_library_resets_cycle (w : World)
    (used : gmap string string) (exemptions : list string) (st : State)
    (used1 : gmap string string) :
  let min_items := default 1 (minimum_items (config w)) in
  clean used (date (now w st)) = Return used1 →
  (∃ name, name ∈ libraries (config w)
           ∧ short_of_quota w min_items used1 exemptions st name) →
  ∃ st',
    cycle w used exemptions st = (st', Return (Restart ∅))
    ∧ used_collections_file st' = Content ∅
    ∧ elapsed st' = elapsed st
    ∧ (∀ passes, stop_event_is_set w st = false →
         main_loop (S passes) w used exemptions st
         = main_loop passes w ∅ exemptions st')
    ∧ ∃ before name after,
        libraries (config w) = before ++ name :: after
        ∧ short_of_quota w min_items used1 exemptions st name
        ∧ ∀ st1 pp, elapsed st1 = elapsed st →
            ∃ st2 pp2,
              pin_libraries w min_items used1 exemptions
                            (before ++ name :: after) pp st1
              = (st2, Return (pp2, true))
              ∧ pin_libraries w min_items used1 exemptions
                              (before ++ [name]) pp st1
                = (st2, Return (pp2, true)).
Proof.
  intros min_items Hclean Hshort.
  destruct (short_library_restarts w used exemptions st used1 Hclean Hshort)
    as (st' & Hcycle & Hfile & He').
  exists st'. split_and!; [done..| |].
  - intros passes Hstop.
    by rewrite (main_loop_pass _ _ _ _ _ _ _ Hstop Hcycle).
  - destruct (first_short_library _ _ _ _ _ _ Hshort)
      as (before & name & after & Hlibs & Hbefore & Hname).
    exists before, name, after. split_and!; [done..|].
    intros sta pp Hea.
    destruct (pin_libraries_first_short w min_items used1 exemptions
                before name after pp sta) as (st2 & pp2 & H1 & H2 & _).
    + eapply Forall_impl; [exact Hbefore|]. intros n Hn.
      by rewrite (short_of_quota_elapsed _ _ _ _ st sta).
    + by rewrite (short_of_quota_elapsed _ _ _ _ st sta).
    + by exists st2, pp2.
Qed.

Lemma clean_empty D : clean ∅ D = Return ∅.
Proof.
  rewrite clean_well_formed by apply map_Forall_empty.
  by rewrite map_filter_empty.
Qed.


Lemma cycle_slept_elapsed w used ex st st' used' :
  cycle w used ex st = (st', Return (Slept used')) →
  elapsed st' = elapsed st + default 30 (pinning_interval (config w)) * 60.
Proof.
  unfold cycle. unfold bindM at 1.
  destruct (clean used (date (now w st))) as [used1|e] eqn:Hclean.
  - destruct (begin_cycle_returns w used st used1 Hclean)
      as (st1 & -> & He1 & _).
    unfold bindM at 1.
    pose proof (respects_pin_libraries frame w
                  (default 1 (minimum_items (config w))) used1 ex
                  (libraries (config w)) [] st1) as Hfr.
    destruct (pin_libraries _ _ _ _ _ _ st1) as [st2 [[pp []]|e]];
      simpl in Hfr.
    + destruct (reset_exclusions_outcome w st2) as (st3 & -> & _). done.
    + destruct (record_and_sleep_outcome w pp used1 st2)
        as (st3 & r & -> & Hr).
      intros [= -> ->]. rewrite Hr. destruct Hfr as [-> _]. by rewrite He1.
    + done.
  - destruct (begin_cycle_raises w used st e Hclean) as (st1 & -> & _). done.
Qed.


(** A library that is short of its quota even with no exclusions makes
    every pass end in the reset branch: the loop never reaches its sleep. *)
Lemma reset_repeats_while_short w ex name passes st :
  name ∈ libraries (config w) →
  short_of_quota w (default 1 (minimum_items (config w))) ∅ ex st name →
  stop_event_is_set w st = false →
  ∃ st', main_loop passes w ∅ ex st = (st', Return StillRunning)
         ∧ elapsed st' = elapsed st.
Proof.
  intros Hin. revert st. induction passes as [|passes IH];
    intros st Hshort Hstop.
  { simpl. rewrite Hstop. by exists st. }
  destruct (short_library_restarts w ∅ ex st ∅ (clean_empty _))
    as (st1 & Hcycle & _ & He1); [by exists name|].
  rewrite (main_loop_pass _ _ _ _ _ _ _ Hstop Hcycle).
  destruct (IH st1) as (st' & Hloop & He').
  - by rewrite (short_of_quota_elapsed _ _ _ _ st st1).
  - unfold stop_event_is_set in *. by rewrite He1.
  - exists st'. split; [done|]. by rewrite He', He1.
Qed.

(** C6, as the code has it. When the stop event is set after a pass began
    and no later than the end of that pass's sleep, the loop exits at the
    next evaluation of its condition, before another pass begins; this
    happens when the single sleep of the whole configured interval is
    over, not earlier. *)
Theorem stop_during_sleep_exits_after_interval (passes : nat) (w : World)
    (used : gmap string string) (exemptions : list string) (st st' : State)
    (used' : gmap string string) (t : Z) :
  stop_at w = Some t →
  elapsed st < t →
  cycle w used exemptions st = (st', Return (Slept used')) →
  t ≤ elapsed st' →
  main_loop (S passes) w used exemptions st = (st', Return Stopped)
  ∧ elapsed st' = elapsed st + default 30 (pinning_interval (config w)) * 60.
Proof.
  intros Hstop Hbefore Hcycle Hafter.
  split; [|by eapply cycle_slept_elapsed].
  rewrite (main_loop_pass _ _ _ _ _ st' (Slept used')); [|
    |done].
  - apply main_loop_stopped. unfold stop_event_is_set. rewrite Hstop.
    by apply bool_decide_eq_true.
  - unfold stop_event_is_set. rewrite Hstop.
    apply bool_decide_eq_false. lia.
Qed.

(** ** Pinning the selected collections and recording them *)


Lemma pin_collections_sublist w l pp st :
  ∃ st' pinned, pin_collections w l pp st = (st', Return (pp ++ pinned))
                ∧ pinned `sublist_of` l.
Proof.
  revert pp st. induction l as [|c l IH]; intros pp st; simpl.
  { exists st, []. by rewrite app_nil_r. }
  unfold bindM, try_except.
  destruct (promote w c st) as [sta [[]|e]]; simpl.
  - match goal with |- context [pin_collections w l ?p ?s] =>
      destruct (IH p s) as (st' & pinned & -> & Hsub) end.
    exists st', (c :: pinned). rewrite <- app_assoc. split; [done|].
    by apply sublist_skip.
  - match goal with |- context [pin_collections w l ?p ?s] =>
      destruct (IH p s) as (st' & pinned & -> & Hsub) end.
    exists st', pinned. split; [done|]. by apply sublist_cons.
Qed.



(** ** The 'New Episodes' handler *)

Lemma toggle_first_calls (w : World) (always_pin : bool) (name : string)
    (c : Collection) (st : State) :
  let m : M unit := if always_pin
           then try_except
                  (let* _ := promote w c in
                   logging INFO (NewEpisodesPinned name))
                  (λ e, logging ERROR (ErrorPinningNewEpisodes e))
           else try_except
                  (let* _ := demote w c in
                   logging INFO (NewEpisodesUnpinned name))
                  (λ e, logging ERROR (ErrorUnpinningNewEpisodes e)) in
  ∃ n, (1 ≤ n ≤ 3)%nat
    ∧ calls (fst (m st)) = rev (take n (toggle_calls always_pin c)) ++ calls st
    ∧ ((n < 3)%nat →
       ∃ call, toggle_calls always_pin c !! (n - 1)%nat = Some call
               ∧ raises (plex w) (length (calls st) + (n - 1)) call = true).
Proof.
  assert (∀ k : nat, (k + 0 = k ∧ k + 1 = S k ∧ k + 2 = S (S k))%nat) as Hk
    by (intros; lia).
  destruct always_pin; simpl;
    unfold try_except, promote, demote, bindM, remote; simpl.
  all: destruct (raises (plex w) (length (calls st)) _) eqn:H1; simpl;
     [exists 1%nat|
      destruct (raises (plex w) (S (length (calls st))) _) eqn:H2; simpl;
      [exists 2%nat|
       destruct (raises (plex w) (S (S (length (calls st)))) _) eqn:H3; simpl;
       exists 3%nat]].
  all: split; [lia|]; split; [done|]; intros Hn; try lia.
  all: eexists; (split; [done|]); simpl.
  all: rewrite ?(proj1 (Hk _)), ?(proj1 (proj2 (Hk _))); done.
Qed.

Lemma toggle_new_episodes_calls w always_pin name collections st :
  let st' := fst (toggle_new_episodes w always_pin name collections st) in
  match first_new_episodes collections with
  | Some c =>
      ∃ n, (1 ≤ n ≤ 3)%nat
        ∧ calls st' = rev (take n (toggle_calls always_pin c)) ++ calls st
        ∧ ((n < 3)%nat →
           ∃ call, toggle_calls always_pin c !! (n - 1)%nat = Some call
                   ∧ raises (plex w) (length (calls st) + (n - 1)) call
                     = true)
  | None => calls st' = calls st
  end.
Proof.
  unfold first_new_episodes.
  induction collections as [|c cs IH]; [done|].
  simpl. rewrite filter_cons. destruct (decide (is_new_episodes c)); [|done].
  simpl. apply (toggle_first_calls w always_pin name c st).
Qed.

(** One library of the handler: its calls all go to the first collection of
    the listing whose lower-cased title is "new episodes", stopping at the
    first call that raises; with no such collection, or when the library
    cannot be listed, it makes no call. *)
Lemma new_episodes_library_calls (w : World) (always_pin : bool)
    (library_name : string) (st : State) :
  let st' := fst (handle_new_episodes_library w always_pin library_name st) in
  match assoc_get library_name (sections (plex w)) with
  | Some (Return collections) =>
      match first_new_episodes collections with
      | Some c =>
          ∃ n, (1 ≤ n ≤ 3)%nat
            ∧ calls st' = rev (take n (toggle_calls always_pin c)) ++ calls st
            ∧ ((n < 3)%nat →
               ∃ call, toggle_calls always_pin c !! (n - 1)%nat = Some call
                       ∧ raises (plex w) (length (calls st) + (n - 1)) call
                         = true)
      | None => calls st' = calls st
      end
  | _ => calls st' = calls st
  end.
Proof.
  intros st'.
  assert (∀ cs, toggle_new_episodes w always_pin library_name cs st
                = (fst (toggle_new_episodes w always_pin library_name cs st),
                   Return tt)) as Hret.
  { intros cs. induction cs as [|c cs IH]; [done|]. simpl.
    destruct (decide (is_new_episodes c)); [|done].
    destruct always_pin; unfold try_except;
      by destruct (bindM _ _ st) as [? [[]|]]. }
  destruct (assoc_get library_name (sections (plex w))) as [[cs|e]|] eqn:Hsec.
  - assert (st' = fst (toggle_new_episodes w always_pin library_name cs st))
      as ->.
    { subst st'. unfold handle_new_episodes_library, try_except, section.
      rewrite Hsec. unfold bindM. cbn [lift]. by rewrite Hret. }
    apply toggle_new_episodes_calls.
  - subst st'. unfold handle_new_episodes_library, try_except, section.
    by rewrite Hsec.
  - subst st'. unfold handle_new_episodes_library, try_except, section.
    by rewrite Hsec.
Qed.

Lemma new_episodes_library_returns w always_pin library_name st :
  handle_new_episodes_library w always_pin library_name st
  = (fst (handle_new_episodes_library w always_pin library_name st),
     Return tt).
Proof.
  assert (never_raises (handle_new_episodes_library w always_pin library_name))
    as H.
  { apply never_raises_try. intros e. apply never_raises_logging. }
  destruct (H st) as [[] Hr].
  destruct (handle_new_episodes_library w always_pin library_name st).
  simpl in *. by subst.
Qed.

(** C10. The special-case handler goes through the libraries it is given,
    in order, and its remote calls are, library after library, the calls of
    one toggle per library: for a library that lists a collection whose
    lower-cased title is "new episodes", the calls go to the first such
    collection of the listing and to no other: the visibility hub is
    fetched and the collection is promoted on the home and shared pages when
    the always-pin flag is true, demoted on both when it is false, stopping
    short only at a call that the server fails; for a library with no such
    collection, or that cannot be listed, the handler makes no call. *)
Theorem new_episodes_handler_toggles_first (w : World)
    (libraries : list string) (always_pin : bool) (st : State) :
  ∃ segments : list (list RemoteCall),
    calls (fst (handle_new_episodes_pinning w libraries always_pin st))
    = rev (mjoin segments) ++ calls st
    ∧ Forall2
        (λ library_name segment,
           match assoc_get library_name (sections (plex w)) with
           | Some (Return collections) =>
               match first_new_episodes collections with
               | Some c =>
                   ∃ n, (1 ≤ n ≤ 3)%nat
                     ∧ segment = take n (toggle_calls always_pin c)
                     ∧ ((n < 3)%nat →
                        ∃ i call,
                          toggle_calls always_pin c !! (n - 1)%nat = Some call
                          ∧ raises (plex w) i call = true)
               | None => segment = []
               end
           | _ => segment = []
           end)
        libraries segments.
Proof.
  unfold handle_new_episodes_pinning, bindM. cbn [logging].
  set (st0 := mkState _ _ _ _ _).
  change (calls st) with (calls st0). clearbody st0. clear st.
  revert st0. induction libraries as [|name rest IH]; intros st.
  { exists []. split; [done|constructor]. }
  cbn [for_each]. unfold bindM at 1.
  rewrite new_episodes_library_returns.
  set (st1 := fst (handle_new_episodes_library w always_pin name st)).
  destruct (IH st1) as (segments & Hcalls & Hall).
  pose proof (new_episodes_library_calls w always_pin name st) as Hone.
  cbv zeta in Hone. fold st1 in Hone.
  assert (∃ segment,
            calls st1 = rev segment ++ calls st
            ∧ match assoc_get name (sections (plex w)) with
              | Some (Return collections) =>
                  match first_new_episodes collections with
                  | Some c =>
                      ∃ n, (1 ≤ n ≤ 3)%nat
                        ∧ segment = take n (toggle_calls always_pin c)
                        ∧ ((n < 3)%nat →
                           ∃ i call,
                             toggle_calls always_pin c !! (n - 1)%nat
                             = Some call
                             ∧ raises (plex w) i call = true)
                  | None => segment = []
                  end
              | _ => segment = []
              end) as (segment & Hseg & Hshape).
  { destruct (assoc_get name (sections (plex w))) as [[cs|e]|];
      [|by exists []..].
    destruct (first_new_episodes cs) as [c|]; [|by exists []].
    destruct Hone as (n & Hn & Hc & Hstop).
    exists (take n (toggle_calls always_pin c)). split; [done|].
    exists n. split; [done|]. split; [done|].
    intros Hlt. destruct (Hstop Hlt) as (call & ? & ?). by eexists _, call. }
  exists (segment :: segments). split; [|by constructor].
  rewrite Hcalls, Hseg. simpl. rewrite rev_app_distr. by rewrite app_assoc.
Qed.

Lemma first_new_episodes_first collections c :
  first_new_episodes collections = Some c →
  ∃ l1 l2, collections = l1 ++ c :: l2
           ∧ is_new_episodes c
           ∧ Forall (λ x, ¬ is_new_episodes x) l1.
Proof.
  unfold first_new_episodes.
  induction collections as [|x cs IH]; [done|].
  rewrite filter_cons. destruct (decide (is_new_episodes x)) as [Hx|Hx].
  - intros [= ->]. by exists [], cs.
  - intros H. destruct (IH H) as (l1 & l2 & -> & Hc & Hl1).
    exists (x :: l1), l2. split_and!; [done..|]. by constructor.
Qed.

(** ** Loading the persisted state *)

(** C7, at the failing input. With a cooldown file or an exemption file
    that exists but is not valid JSON, the loader raises [JSONDecodeError]
    and logs nothing, and [main] ends before its first pass; with an absent
    file the loader returns the empty map or list, also without logging. *)
Theorem load_raises_on_corrupt_file (passes : nat) (w : World) (st : State) :
  let corrupt_cooldowns :=
    mkState Invalid (calls st) (log st) (elapsed st) (draws st) in
  let no_cooldowns :=
    mkState Absent (calls st) (log st) (elapsed st) (draws st) in
  let corrupt_exemptions :=
    mkWorld (config w) (plex w) (rng w) (started w) (stop_at w)
            (gui_instance w) Invalid in
  let no_exemptions :=
    mkWorld (config w) (plex w) (rng w) (started w) (stop_at w)
            (gui_instance w) Absent in
  load_used_collections corrupt_cooldowns
  = (corrupt_cooldowns, Raise JSONDecodeError)
  ∧ load_user_exemptions corrupt_exemptions st = (st, Raise JSONDecodeError)
  ∧ snd (main passes w corrupt_cooldowns) = Crashed JSONDecodeError
  ∧ calls (fst (main passes w corrupt_cooldowns)) = calls st
  ∧ snd (main passes corrupt_exemptions no_cooldowns)
    = Crashed JSONDecodeError
  ∧ load_used_collections no_cooldowns = (no_cooldowns, Return ∅)
  ∧ load_user_exemptions no_exemptions st = (st, Return []).
Proof. by repeat split. Qed.

(** ** The default quota *)

(** With no block containing the current time, the resolver answers
    ["Default"] with the limit found under [default_limits]. *)
Lemma first_matching_block_none current_time lim day_blocks :
  Forall (λ b, block_contains (snd b) current_time = Return false) day_blocks →
  first_matching_block current_time lim day_blocks = Return ("Default", lim).
Proof.
  induction 1 as [|[block details] bs Hb _ IH]; [done|].
  simpl in *. by rewrite Hb.
Qed.

Lemma resolver_default w library_name st :
  match default (Blocks [])
          (assoc_get (day_name (weekday (now w st)))
             (time_blocks (library_settings_of (config w) library_name))) with
  | NotADict => True
  | Blocks day_blocks =>
      Forall (λ b, block_contains (snd b) (hhmm (now w st)) = Return false)
             day_blocks
  end →
  snd (get_current_time_block w library_name st)
  = Return ("Default",
            default 5 (assoc_get library_name (default_limits (config w)))).
Proof.
  unfold get_current_time_block, bindM. cbn [get_state].
  destruct (default _ _) as [|day_blocks]; [done|].
  intros H. cbn [lift snd]. by apply first_matching_block_none.
Qed.

(** The selection, however, takes its limit for ["Default"] from
    [libraries_settings]. *)
Lemma final_limit_default cfg library_name current_limit :
  final_limit_of cfg library_name "Default" current_limit
  = default 5 (default_limit (library_settings_of cfg library_name)).
Proof. unfold final_limit_of. by rewrite decide_False by (by intros []). Qed.

(** C9, at the failing input. With [default_limits = {"Movies": 3}] and no
    time blocks, the resolver returns ["Default"] with the library's default
    quota 3, but the limit the pass uses is 5: with four eligible
    collections the library is found short of its quota and the pass goes
    to the reset branch instead of selecting three. *)
Theorem default_quota_ignored_by_selection :
  snd (get_current_time_block quota_world "Movies" initial_state)
  = Return ("Default", 3)
  ∧ final_limit_of (config quota_world) "Movies" "Default" 3 = 5
  ∧ snd (process_library quota_world 1 ∅ [] "Movies" [] initial_state)
    = Return ([], true)
  ∧ head (log (fst (process_library quota_world 1 ∅ [] "Movies" []
                                    initial_state)))
    = Some (WARNING, NotEnoughValid "Movies" 5 4)
  ∧ ∃ st', cycle quota_world ∅ [] initial_state = (st', Return (Restart ∅)).
Proof.
  split_and!; [by vm_compute..|].
  eexists. by vm_compute.
Qed.

(** ** The theorems at concrete inputs *)


(** What the witness picks, and draws from a population large enough for
    the set loop of [random.sample]. *)
Lemma select_catalogue :
  select (λ n, n) 0 catalogue 2 1 catalogue_exclusions catalogue_exemptions
  = Picked [mkCollection 1 "A" 2; mkCollection 5 "E" 4].
Proof. by vm_compute. Qed.

Lemma select_large_library :
  (setsize 3 < length large_library)%nat
  ∧ select (λ n, n) 0 large_library 3 1 ∅ []
    = Picked [mkCollection 1 "Film" 1; mkCollection 2 "Film" 1;
              mkCollection 3 "Film" 1]
  ∧ select (λ n, 2 * n)%nat 4 large_library 3 1 ∅ []
    = Picked [mkCollection 9 "Film" 1; mkCollection 11 "Film" 1;
              mkCollection 13 "Film" 1].
Proof. split_and!; [vm_compute; lia|by vm_compute..]. Qed.


Lemma clean_exact_idempotent_witness :
  ∃ M', clean {[ "A" := "2024-05-01"; "B" := "2024-04-01" ]}
              (mkDate 2024 4 1) = Return M'
        ∧ clean M' (mkDate 2024 4 1) = Return M'.
Proof.
  destruct (clean_exact_idempotent
              {[ "A" := "2024-05-01"; "B" := "2024-04-01" ]}
              (mkDate 2024 4 1)) as (M' & H1 & _ & H3).
  - apply (bool_decide_unpack _). by vm_compute.
  - exists M'. split; [exact H1|exact H3].
Defined.

Lemma insufficient_library_resets_cycle_witness :
  ∃ st', cycle starved_world ∅ [] initial_state = (st', Return (Restart ∅))
         ∧ used_collections_file st' = Content ∅
         ∧ elapsed st' = 0.
Proof.
  destruct (insufficient_library_resets_cycle starved_world ∅ []
              initial_state ∅) as (st' & H1 & H2 & H3 & _).
  - by vm_compute.
  - exists "Movies". split; [apply list_elem_of_here|].
    exists movies, "Default", 5. split_and!; by vm_compute.
  - exists st'. split; [exact H1|]. split; [exact H2|exact H3].
Defined.



(** C6, as stated, fails: with the stop event set one second into the
    run, the loop exits only when the whole sleep is over, 1799 seconds
    later for a 30 minute interval and 3599 seconds later for a 60 minute
    one. *)
Lemma stop_waits_for_the_whole_sleep :
  snd (main 2 (stopped_world 30) initial_state) = LoopExited
  ∧ elapsed (fst (main 2 (stopped_world 30) initial_state)) - 1 = 1799
  ∧ snd (main 2 (stopped_world 60) initial_state) = LoopExited
  ∧ elapsed (fst (main 2 (stopped_world 60) initial_state)) - 1 = 3599.
Proof. split_and!; by vm_compute. Qed.

Lemma stop_during_sleep_exits_after_interval_witness :
  ∃ st', main_loop 3 (stopped_world 30) ∅ [] initial_state
         = (st', Return Stopped)
         ∧ elapsed st' = 1800.
Proof.
  eexists.
  eapply (stop_during_sleep_exits_after_interval 2 (stopped_world 30) ∅ []
            initial_state _ _ 1).
  - reflexivity.
  - by vm_compute.
  - by vm_compute.
  - by vm_compute.
Defined.


Lemma new_episodes_handler_toggles_first_witness :
  ∃ segments : list (list RemoteCall),
    calls (fst (handle_new_episodes_pinning
                  three_libraries_world ["Movies"; "Shows"; "Music"] true
                  initial_state))
    = rev (mjoin segments) ++ []
    ∧ Forall2
        (λ library_name segment,
           match assoc_get library_name
                   (sections (plex three_libraries_world)) with
           | Some (Return collections) =>
               match first_new_episodes collections with
               | Some c =>
                   ∃ n, (1 ≤ n ≤ 3)%nat
                     ∧ segment = take n (toggle_calls true c)
                     ∧ ((n < 3)%nat →
                        ∃ i call,
                          toggle_calls true c !! (n - 1)%nat = Some call
                          ∧ raises (plex three_libraries_world) i call = true)
               | None => segment = []
               end
           | _ => segment = []
           end)
        ["Movies"; "Shows"; "Music"] segments.
Proof.
  exact (new_episodes_handler_toggles_first three_libraries_world
           ["Movies"; "Shows"; "Music"] true initial_state).
Defined.

(** On that server the handler's calls are the three promote calls on
    "NEW Episodes", the first of the two collections of ["Shows"] with that
    name; with the flag off they are the three demote calls. *)
Lemma new_episodes_handler_three_libraries :
  calls (fst (handle_new_episodes_pinning
                three_libraries_world ["Movies"; "Shows"; "Music"] true
                initial_state))
  = [Hub 8 promoteShared; Hub 8 promoteHome; Visibility 8]
  ∧ calls (fst (handle_new_episodes_pinning
                  three_libraries_world ["Movies"; "Shows"; "Music"] false
                  initial_state))
    = [Hub 8 demoteShared; Hub 8 demoteHome; Visibility 8].
Proof. split; by vm_compute. Qed.

(** * Further properties of the code

    ** The time block resolver *)

Lemma first_matching_block_skip current_time lim before rest :
  Forall (λ b, block_contains (snd b) current_time = Return false) before →
  first_matching_block current_time lim (before ++ rest)
  = first_matching_block current_time lim rest.
Proof.
  induction 1 as [|[b d] bs Hb _ IH]; [done|].
  cbn [app first_matching_block]. cbn [snd] in Hb. by rewrite Hb.
Qed.

(** The first block, in the configured order, whose interval contains the
    current time is returned with its limit (the library's default limit
    when it has none), whatever follows it in the day's blocks. *)
Theorem resolver_first_match_wins (w : World) (library_name : string)
    (st : State) (before after : list (string * BlockDetails))
    (block : string) (details : BlockDetails) :
  assoc_get (day_name (weekday (now w st)))
            (time_blocks (library_settings_of (config w) library_name))
  = Some (Blocks (before ++ (block, details) :: after)) →
  Forall (λ b, block_contains (snd b) (hhmm (now w st)) = Return false)
         before →
  block_contains details (hhmm (now w st)) = Return true →
  get_current_time_block w library_name st
  = (st, Return (block,
                 default (default 5 (assoc_get library_name
                                               (default_limits (config w))))
                         (limit details))).
Proof.
  intros Hday Hbefore Hin.
  unfold get_current_time_block, bindM. cbn [get_state]. rewrite Hday.
  change (default (Blocks []) (Some ?x)) with x. cbn [lift]. f_equal.
  rewrite first_matching_block_skip by done.
  cbn [first_matching_block]. by rewrite Hin.
Qed.

Lemma resolver_first_match_wins_witness :
  get_current_time_block scheduled_world "Movies" initial_state
  = (initial_state, Return ("Morning", 2)).
Proof.
  apply (resolver_first_match_wins scheduled_world "Movies" initial_state
           [("Night", mkBlock (Some "00:00") (Some "06:00") (Some 1))]
           [("Day", mkBlock (Some "08:00") (Some "20:00") (Some 3));
            ("Broken", mkBlock None None None)]
           "Morning" (mkBlock (Some "06:00") (Some "12:00") (Some 2))).
  - reflexivity.
  - repeat constructor.
  - reflexivity.
Defined.

(** A block without a start time, or one that has started and has no end
    time, makes the resolver raise [TypeError] when it is reached, that is
    when no block before it contains the current time. *)
Theorem resolver_raises_on_block_without_times (w : World)
    (library_name : string) (st : State)
    (before after : list (string * BlockDetails))
    (block : string) (details : BlockDetails) :
  assoc_get (day_name (weekday (now w st)))
            (time_blocks (library_settings_of (config w) library_name))
  = Some (Blocks (before ++ (block, details) :: after)) →
  Forall (λ b, block_contains (snd b) (hhmm (now w st)) = Return false)
         before →
  start_time details = None
  ∨ (∃ s, start_time details = Some s
          ∧ String.leb s (hhmm (now w st)) = true
          ∧ end_time details = None) →
  get_current_time_block w library_name st = (st, Raise TypeError).
Proof.
  intros Hday Hbefore Hbad.
  assert (block_contains details (hhmm (now w st)) = Raise TypeError) as Hin.
  { unfold block_contains. destruct Hbad as [->|(s & -> & -> & ->)]; done. }
  unfold get_current_time_block, bindM. cbn [get_state]. rewrite Hday.
  change (default (Blocks []) (Some ?x)) with x. cbn [lift]. f_equal.
  rewrite first_matching_block_skip by done.
  cbn [first_matching_block]. by rewrite Hin.
Qed.

Lemma resolver_raises_on_block_without_times_witness :
  get_current_time_block scheduled_world "Movies"
    (mkState Absent [] [] 86400 0)
  = (mkState Absent [] [] 86400 0, Raise TypeError).
Proof.
  apply (resolver_raises_on_block_without_times scheduled_world "Movies"
           (mkState Absent [] [] 86400 0) [] [] "Broken"
           (mkBlock None None None)).
  - by vm_compute.
  - constructor.
  - by left.
Defined.

(** ** One library of the selection loop, continued *)

Lemma get_current_time_block_quiet w name st :
  calls (fst (get_current_time_block w name st)) = calls st
  ∧ draws (fst (get_current_time_block w name st)) = draws st.
Proof.
  unfold get_current_time_block, bindM. cbn [get_state].
  destruct (default _ _); [done|]. done.
Qed.

Lemma select_picked_length rng i cs Q m u ex l :
  select rng i cs Q m u ex = Picked l →
  0 ≤ Q ∧ Z.of_nat (length l) ≤ Q.
Proof. intros [Hlen _]%select_picked. lia. Qed.

(** When a library cannot be listed, or its time block cannot be resolved,
    the exception stays inside the library's iteration: it is logged, no
    remote call is made and no entropy is drawn for the library, the pinned
    set is unchanged and the loop goes on with the next library. *)
Theorem library_failure_is_isolated (w : World) (min_items : Z)
    (used : gmap string string) (exemptions : list string)
    (library_name : string) (previous_pinned : list Collection) (st : State)
    (e : Exn) :
  match assoc_get library_name (sections (plex w)) with
  | Some (Return _) => snd (get_current_time_block w library_name st) = Raise e
  | Some (Raise e') => e' = e
  | None => e = RemoteError
  end →
  ∃ st',
    process_library w min_items used exemptions library_name previous_pinned st
    = (st', Return (previous_pinned, false))
    ∧ calls st' = calls st
    ∧ draws st' = draws st
    ∧ head (log st') = Some (ERROR, ErrorProcessingLibrary library_name e).
Proof.
  intros Hfail.
  unfold process_library, try_except.
  unfold bindM at 1. cbn [logging].
  set (st1 := mkState _ _ (_ :: log st) _ _).
  unfold bindM at 1. unfold section.
  destruct (assoc_get library_name (sections (plex w))) as [[cs|e']|];
    cbn [lift raise]; [|subst; by eexists..].
  unfold bindM at 1.
  rewrite <- (resolved_elapsed w library_name st st1 eq_refl) in Hfail.
  pose proof (get_current_time_block_quiet w library_name st1) as [Hc Hd].
  destruct (get_current_time_block w library_name st1) as [st2 r].
  simpl in Hfail, Hc, Hd. subst r.
  eexists. split; [done|]. by simpl.
Qed.

Lemma library_failure_is_isolated_witness :
  ∃ st',
    process_library scheduled_world 1 ∅ [] "Movies" []
                    (mkState Absent [] [] 86400 0)
    = (st', Return ([], false))
    ∧ calls st' = []
    ∧ head (log st') = Some (ERROR, ErrorProcessingLibrary "Movies" TypeError).
Proof.
  destruct (library_failure_is_isolated scheduled_world 1 ∅ [] "Movies" []
              (mkState Absent [] [] 86400 0) TypeError)
    as (st' & H1 & H2 & _ & H4).
  - by vm_compute.
  - exists st'. split; [exact H1|]. split; [exact H2|exact H4].
Defined.

(** Whatever happens in a library's iteration, it returns, and what it adds
    to the pinned set are collections of that library's listing that passed
    the eligibility filter, no more of them than the limit in force. *)
Theorem library_pins_only_eligible (w : World) (min_items : Z)
    (used : gmap string string) (exemptions : list string)
    (library_name : string) (previous_pinned : list Collection) (st : State) :
  ∃ st' pinned reset_needed,
    process_library w min_items used exemptions library_name previous_pinned st
    = (st', Return (previous_pinned ++ pinned, reset_needed))
    ∧ (∀ c, c ∈ pinned →
         ∃ collections,
           assoc_get library_name (sections (plex w))
           = Some (Return collections)
           ∧ c ∈ collections
           ∧ is_valid min_items used exemptions c)
    ∧ (∀ current_block current_limit,
         snd (get_current_time_block w library_name st)
         = Return (current_block, current_limit) →
         Z.of_nat (length pinned)
         ≤ Z.max 0 (final_limit_of (config w) library_name current_block
                                   current_limit)).
Proof.
  unfold process_library, try_except.
  unfold bindM at 1. cbn [logging].
  set (st1 := mkState _ _ (_ :: log st) _ _).
  unfold bindM at 1. unfold section.
  destruct (assoc_get library_name (sections (plex w))) as [[cs|e']|] eqn:Hsec;
    cbn [lift raise];
    [|unfold bindM; cbn [logging ret]; eexists _, [], _; rewrite app_nil_r;
      (split; [reflexivity|]); (split; [by intros c ?%elem_of_nil|intros; simpl; lia])..].
  unfold bindM at 1.
  rewrite <- (resolved_elapsed w library_name st st1 eq_refl).
  destruct (get_current_time_block w library_name st1) as [st2 [[blk lim]|e]];
    cbn [snd];
    [|unfold bindM; cbn [logging ret]; eexists _, [], _; rewrite app_nil_r;
      (split; [reflexivity|]); (split; [by intros c ?%elem_of_nil|intros; simpl; lia])].
  unfold bindM at 1. cbn [logging].
  unfold bindM at 1. cbn [get_state draws].
  destruct (select _ _ cs _ min_items used exemptions) as [| |to_pin|e]
    eqn:Hsel;
    [unfold bindM; cbn [logging ret raise]; eexists _, [], _;
     rewrite app_nil_r; (split; [reflexivity|]);
     (split; [by intros c ?%elem_of_nil|intros; simpl; lia])..| |
     unfold bindM; cbn [logging ret raise]; eexists _, [], _;
     rewrite app_nil_r; (split; [reflexivity|]);
     (split; [by intros c ?%elem_of_nil|intros; simpl; lia])].
  unfold bindM at 1. cbn [consume].
  unfold bindM at 1. cbn [logging].
  unfold bindM at 1. cbn [logging].
  unfold bindM at 1.
  match goal with |- context [pin_collections w to_pin previous_pinned ?s] =>
    destruct (pin_collections_sublist w to_pin previous_pinned s)
      as (st5 & pinned & -> & Hsub) end.
  cbn [ret]. exists st5, pinned, false. split; [done|]. split.
  - intros c Hc. exists cs. split; [done|].
    apply (sublist_subseteq _ _ Hsub) in Hc.
    assert (c ∈ collections_to_pin
                  (select (rng w) (draws st2) cs
                     (final_limit_of (config w) library_name blk lim)
                     min_items used exemptions)) as Hc'
      by (by rewrite Hsel).
    by apply select_to_pin_valid in Hc'.
  - intros blk' lim' [= <- <-].
    apply select_picked_length in Hsel as [? Hlen].
    apply sublist_length in Hsub. lia.
Qed.

Lemma library_pins_only_eligible_witness :
  ∃ st' pinned reset_needed,
    process_library flaky_world 1 ∅ [] "Movies" [] initial_state
    = (st', Return ([] ++ pinned, reset_needed))
    ∧ Z.of_nat (length pinned) ≤ 2.
Proof.
  destruct (library_pins_only_eligible flaky_world 1 ∅ [] "Movies" []
              initial_state) as (st' & pinned & b & H1 & _ & H3).
  exists st', pinned, b. split; [exact H1|].
  apply (H3 "Default" 5). by vm_compute.
Defined.

(** ** Pinning and recording, continued *)

Lemma promote_succeeds w c st :
  (∀ n call, raises (plex w) n call = false) →
  ∃ st', promote w c st = (st', Return tt)
         ∧ calls st' = rev (toggle_calls true c) ++ calls st.
Proof.
  intros Hok. unfold promote, bindM, remote.
  repeat (rewrite Hok; cbn [calls]). by eexists.
Qed.

(** When no remote call raises, every selected collection is pinned: the
    pinned set grows by the whole selection, in order, and the calls made
    are, for each collection in turn, the visibility hub and the two
    promotions. *)
Theorem pin_collections_all_succeed (w : World)
    (collections_to_pin previous_pinned : list Collection) (st : State) :
  (∀ n call, raises (plex w) n call = false) →
  ∃ st',
    pin_collections w collections_to_pin previous_pinned st
    = (st', Return (previous_pinned ++ collections_to_pin))
    ∧ calls st'
      = rev (mjoin (toggle_calls true <$> collections_to_pin)) ++ calls st.
Proof.
  intros Hok. revert previous_pinned st.
  induction collections_to_pin as [|c l IH]; intros pp st.
  { exists st. by rewrite app_nil_r. }
  cbn [pin_collections]. unfold bindM, try_except.
  destruct (promote_succeeds w c st Hok) as (st1 & -> & Hc1).
  cbn [logging ret].
  match goal with |- context [pin_collections w l ?p ?s] =>
    destruct (IH p s) as (st' & -> & Hc') end.
  exists st'. rewrite <- app_assoc. split; [done|].
  rewrite Hc'. cbn [calls]. rewrite Hc1.
  rewrite fmap_cons. cbn [mjoin list_join]. rewrite rev_app_distr.
  by rewrite <- app_assoc.
Qed.

Lemma pin_collections_all_succeed_witness :
  ∃ st', pin_collections starved_world movies [] initial_state
         = (st', Return ([] ++ movies))
         ∧ length (calls st') = 9%nat.
Proof.
  destruct (pin_collections_all_succeed starved_world movies []
              initial_state) as (st' & H1 & H2).
  - reflexivity.
  - exists st'. split; [exact H1|]. by rewrite H2.
Defined.

Lemma record_pinned_values D days d pp used st st' used' :
  date_add D days = Return d →
  record_pinned D days pp used st = (st', Return used') →
  (∀ c, c ∈ pp → used' !! title c = Some (strftime_ymd d))
  ∧ (∀ t, t ∉ title <$> pp → used' !! t = used !! t)
  ∧ frame st st'.
Proof.
  intros Hd. revert used st. induction pp as [|c pp IH]; intros used st.
  { intros [= <- <-]. split_and!; [by intros c ?%elem_of_nil|done|done]. }
  simpl. unfold bindM at 1. rewrite Hd. cbn [lift].
  unfold bindM at 1. cbn [logging]. intros Hrec.
  apply IH in Hrec as (Hin & Hother & Hfr).
  split_and!; [| |by destruct Hfr].
  - intros c' Hc'. apply elem_of_cons in Hc' as [->|Hc']; [|by apply Hin].
    destruct (decide (title c ∈ title <$> pp)) as [Ht|Ht].
    + apply list_elem_of_fmap in Ht as (c'' & -> & Hc''). by apply Hin.
    + rewrite Hother by done. apply lookup_insert_eq.
  - intros t Ht. apply not_elem_of_cons in Ht as [Hne Ht].
    rewrite Hother by done. by apply lookup_insert_ne.
Qed.

Lemma log_and_update_returns (w : World) (previous_pinned : list Collection)
    (used : gmap string string) (exclusion_days : Z) (st : State) (d : Date) :
  date_add (date (now w st)) exclusion_days = Return d →
  ∃ st' used',
    log_and_update_exclusion_list w previous_pinned used exclusion_days st
    = (st', Return used')
    ∧ (∀ c, c ∈ previous_pinned → used' !! title c = Some (strftime_ymd d))
    ∧ (∀ t, t ∉ title <$> previous_pinned → used' !! t = used !! t)
    ∧ used_collections_file st' = Content used'
    ∧ elapsed st' = elapsed st.
Proof.
  intros Hd. unfold log_and_update_exclusion_list.
  unfold bindM at 1. cbn [get_state].
  destruct (record_pinned_outcome (date (now w st)) exclusion_days
              previous_pinned used st) as [H _].
  destruct (H d Hd) as (st1 & used1 & Heq & _).
  destruct (record_pinned_values _ _ _ _ _ _ _ _ Hd Heq)
    as (Hin & Hother & [He _]).
  unfold bindM at 1. rewrite Heq.
  unfold save_used_collections, bindM. cbn.
  eexists _, _. split; [done|]. by split_and!.
Qed.

(** From the year 1000 on [%Y] is four digits. *)
Lemma year_digits_pad4 y : 1000 ≤ y → year_digits y = pad4 y.
Proof.
  intros Hy. unfold year_digits.
  by rewrite !(proj2 (Z.ltb_ge _ _)) by lia.
Qed.

(** Recording the pinned set, when today + [exclusion_days] is a date from
    the year 1000 on, gives every pinned title that date in the ten
    characters of ['%Y-%m-%d'] (four digits of year, two of month, two of
    day), replacing any entry the title had, leaves the other titles as they
    were, and writes the resulting map to the cooldown file. *)
Theorem record_sets_expiry (w : World) (previous_pinned : list Collection)
    (used : gmap string string) (exclusion_days : Z) (st : State) (d : Date) :
  date_add (date (now w st)) exclusion_days = Return d →
  1000 ≤ year d →
  ∃ st' used',
    log_and_update_exclusion_list w previous_pinned used exclusion_days st
    = (st', Return used')
    ∧ (∀ c, c ∈ previous_pinned →
            used' !! title c
            = Some (pad4 (year d) +:+ "-" +:+ pad2 (month d) +:+ "-"
                    +:+ pad2 (day d)))
    ∧ (∀ t, t ∉ title <$> previous_pinned → used' !! t = used !! t)
    ∧ used_collections_file st' = Content used'
    ∧ elapsed st' = elapsed st.
Proof.
  intros Hd H1000.
  destruct (log_and_update_returns w previous_pinned used exclusion_days st d
              Hd) as (st' & used' & H1 & H2 & H3 & H4 & H5).
  exists st', used'. split_and!; [done| |done..].
  intros c Hc. rewrite (H2 c Hc). unfold strftime_ymd.
  by rewrite year_digits_pad4.
Qed.

Lemma record_sets_expiry_witness :
  ∃ st' used',
    log_and_update_exclusion_list starved_world
      [mkCollection 1 "A" 2; mkCollection 3 "C" 5] {[ "A" := "2024-01-01" ]}
      3 initial_state
    = (st', Return used')
    ∧ used' !! "A" = Some "2024-04-04"
    ∧ used' !! "C" = Some "2024-04-04"
    ∧ used_collections_file st' = Content used'.
Proof.
  destruct (record_sets_expiry starved_world
              [mkCollection 1 "A" 2; mkCollection 3 "C" 5]
              {[ "A" := "2024-01-01" ]} 3 initial_state (mkDate 2024 4 4))
    as (st' & used' & H1 & H2 & _ & H4 & _).
  - by vm_compute.
  - simpl. lia.
  - exists st', used'. split; [exact H1|]. split_and!.
    + apply (H2 (mkCollection 1 "A" 2)). apply list_elem_of_here.
    + apply (H2 (mkCollection 3 "C" 5)).
      apply list_elem_of_further, list_elem_of_here.
    + exact H4.
Defined.

(** ** The unpin sweep *)

Global Instance calls_grow_preorder : PreOrder calls_grow.
Proof.
  split.
  - intros st. by exists [].
  - intros st1 st2 st3 [n1 H1] [n2 H2]. exists (n2 ++ n1).
    by rewrite H2, H1, app_assoc.
Qed.

Global Instance calls_grow_primitive : Primitive calls_grow.
Proof.
  split; [apply _| | |].
  - intros lvl m st. by exists [].
  - intros k st. by exists [].
  - intros w c st. unfold remote. destruct (raises _ _ _); by exists [c].
Qed.

Global Instance calls_within_preorder P : PreOrder (calls_within P).
Proof.
  split.
  - intros st. by exists [].
  - intros st1 st2 st3 (n1 & H1 & F1) (n2 & H2 & F2). exists (n2 ++ n1).
    split; [by rewrite H2, H1, app_assoc|]. by apply Forall_app.
Qed.

Lemma calls_within_impl (P Q : RemoteCall → Prop) st st' :
  (∀ call, P call → Q call) → calls_within P st st' → calls_within Q st st'.
Proof.
  intros HPQ (new & Hnew & HP). exists new. split; [done|].
  by eapply Forall_impl.
Qed.

Section Preorder.
Context (R : relation State) `{!PreOrder R}.

(** The continuation only matters for the values the first computation can
    return. *)
Lemma respects_bind_returned {A B} (m : M A) (k : A → M B) :
  respects R m →
  (∀ a, (∃ st, snd (m st) = Return a) → respects R (k a)) →
  respects R (bindM m k).
Proof.
  intros Hm Hk st. unfold bindM. specialize (Hm st).
  destruct (m st) as [st' [a|e]] eqn:Heq; simpl in *; [|done].
  etrans; [done|]. apply Hk. exists st. by rewrite Heq.
Qed.

Lemma respects_try_handled {A} (m : M A) (h : Exn → M A) :
  respects R m → (∀ e, respects R (h e)) → respects R (try_except m h).
Proof.
  intros Hm Hh st. unfold try_except. specialize (Hm st).
  destruct (m st) as [st' [a|e]]; simpl in *; [done|].
  etrans; [done|]. apply Hh.
Qed.

Lemma respects_for_each_member {A} (l : list A) (body : A → M unit) :
  (∀ x, x ∈ l → respects R (body x)) → respects R (for_each l body).
Proof.
  induction l as [|x l IH]; intros Hb; simpl.
  { by intros st. }
  apply respects_bind_returned.
  - apply Hb, list_elem_of_here.
  - intros _ _. apply IH. intros y Hy. by apply Hb, list_elem_of_further.
Qed.

End Preorder.

Lemma calls_within_quiet P {A} (m : M A) :
  (∀ st, calls (fst (m st)) = calls st) → respects (calls_within P) m.
Proof. intros H st. exists []. by rewrite H. Qed.

Lemma demote_calls_within w c :
  respects (calls_within (λ call, call ∈ toggle_calls false c)) (demote w c).
Proof.
  intros st. unfold demote, bindM, remote, toggle_calls. simpl.
  destruct (raises (plex w) (length (calls st)) _); simpl.
  { exists [Visibility (ratingKey c)]. split; [done|].
    repeat constructor. }
  destruct (raises (plex w) (S (length (calls st))) _); simpl.
  { exists [Hub (ratingKey c) demoteHome; Visibility (ratingKey c)].
    split; [done|]. repeat constructor. }
  destruct (raises (plex w) (S (S (length (calls st)))) _); simpl.
  all: exists [Hub (ratingKey c) demoteShared; Hub (ratingKey c) demoteHome;
               Visibility (ratingKey c)];
    (split; [done|]); repeat constructor.
Qed.

(** The unpin sweep only ever fetches visibility hubs and demotes: every
    remote call it makes belongs to a collection listed for one of the
    given libraries, and, when the always-pin flag is set, never to a
    collection whose lower-cased title is "new episodes". *)
Theorem unpin_sweep_spares_new_episodes (w : World) (libraries : list string)
    (always_pin : bool) (st : State) :
  ∃ new,
    calls (fst (unpin_collections w libraries always_pin st))
    = new ++ calls st
    ∧ Forall (λ call,
        ∃ library_name collections c,
          library_name ∈ libraries
          ∧ assoc_get library_name (sections (plex w))
            = Some (Return collections)
          ∧ c ∈ collections
          ∧ call ∈ toggle_calls false c
          ∧ ¬ (always_pin = true ∧ is_new_episodes c)) new.
Proof.
  set (P := λ call : RemoteCall,
    ∃ library_name collections c,
      library_name ∈ libraries
      ∧ assoc_get library_name (sections (plex w)) = Some (Return collections)
      ∧ c ∈ collections
      ∧ call ∈ toggle_calls false c
      ∧ ¬ (always_pin = true ∧ is_new_episodes c)).
  cut (respects (calls_within P) (unpin_collections w libraries always_pin)).
  { intros H. apply H. }
  unfold unpin_collections.
  apply respects_bind_returned; [apply _|by apply calls_within_quiet|].
  intros _ _. apply respects_for_each_member; [apply _|].
  intros name Hname. apply respects_try_handled; [apply _| |].
  2:{ intros e. by apply calls_within_quiet. }
  apply respects_bind_returned; [apply _| |].
  { apply calls_within_quiet. intros st0. unfold section.
    by destruct (assoc_get _ _). }
  intros cs [st0 Hcs]. apply respects_for_each_member; [apply _|].
  intros c Hc. unfold unpin_collection.
  destruct (always_pin && bool_decide (is_new_episodes c)) eqn:Hskip.
  { by apply calls_within_quiet. }
  apply respects_try_handled; [apply _| |].
  2:{ intros e. by apply calls_within_quiet. }
  intros st1. eapply calls_within_impl; [|apply demote_calls_within].
  intros call Hcall. exists name, cs, c. split_and!; [done| |done|done|].
  - unfold section in Hcs.
    destruct (assoc_get name (sections (plex w))) as [[cs'|]|];
      simpl in Hcs; congruence.
  - intros [-> Hne]. simpl in Hskip.
    by rewrite bool_decide_eq_false in Hskip.
Qed.

Lemma for_each_reaches {A} (v : RemoteCall) (l : list A) (body : A → M unit)
    (x : A) :
  (∀ y, never_raises (body y)) →
  (∀ y, respects calls_grow (body y)) →
  x ∈ l →
  (∀ st, v ∈ calls (fst (body x st))) →
  ∀ st, v ∈ calls (fst (for_each l body st)).
Proof.
  intros Hnr Hgrow Hx Hv. induction l as [|y l IH]; intros st.
  { by apply elem_of_nil in Hx. }
  simpl. unfold bindM.
  destruct (Hnr y st) as [[] Hret].
  apply elem_of_cons in Hx as [Hx|Hx].
  - subst y. specialize (Hv st).
    destruct (body x st) as [st1 r]. simpl in Hret, Hv. subst r.
    pose proof (respects_for_each calls_grow l body Hgrow st1) as [new Hnew].
    rewrite Hnew. apply elem_of_app. by right.
  - destruct (body y st) as [st1 r]. simpl in Hret. subst r. by apply IH.
Qed.

Lemma unpin_collection_never_raises w always_pin c :
  never_raises (unpin_collection w always_pin c).
Proof.
  unfold unpin_collection.
  destruct (always_pin && bool_decide (is_new_episodes c));
    [apply never_raises_ret|].
  apply never_raises_try. intros e. apply never_raises_logging.
Qed.

Lemma unpin_collection_grows w always_pin c :
  respects calls_grow (unpin_collection w always_pin c).
Proof.
  unfold unpin_collection.
  destruct (always_pin && bool_decide (is_new_episodes c));
    [apply (respects_ret calls_grow)|].
  apply (respects_try calls_grow); [apply (respects_demote calls_grow)|].
  intros e. apply (respects_logging calls_grow).
Qed.

Lemma unpin_collection_visits w always_pin c st :
  always_pin && bool_decide (is_new_episodes c) = false →
  Visibility (ratingKey c) ∈ calls (fst (unpin_collection w always_pin c st)).
Proof.
  intros Hskip. unfold unpin_collection. rewrite Hskip.
  unfold try_except, demote. unfold bindM at 1. unfold remote at 1.
  destruct (raises (plex w) (length (calls st)) _).
  { cbn. apply list_elem_of_here. }
  match goal with |- context [bindM ?m ?k ?s] =>
    assert (respects calls_grow (bindM m k)) as Hg
      by (apply (respects_bind calls_grow);
          [apply (respects_remote calls_grow)|];
          intros _; apply (respects_remote calls_grow));
    destruct (Hg s) as [new Hnew];
    destruct (bindM m k s) as [st2 [[]|e]] end.
  all: cbn [logging calls fst] in *; rewrite Hnew; apply elem_of_app; right;
    apply list_elem_of_here.
Qed.

(** The sweep is complete: for every given library that can be listed, every
    collection of the listing, except 'New Episodes' when the always-pin
    flag is set, has its visibility hub fetched, whichever remote calls
    raise along the way. *)
Theorem unpin_sweep_visits_every_collection (w : World)
    (libraries : list string) (always_pin : bool) (st : State)
    (library_name : string) (collections : list Collection) (c : Collection) :
  library_name ∈ libraries →
  assoc_get library_name (sections (plex w)) = Some (Return collections) →
  c ∈ collections →
  always_pin && bool_decide (is_new_episodes c) = false →
  Visibility (ratingKey c)
  ∈ calls (fst (unpin_collections w libraries always_pin st)).
Proof.
  intros Hname Hcs Hc Hskip.
  unfold unpin_collections, bindM at 1. cbn [logging].
  apply (for_each_reaches _ _ _ library_name); [| |done|].
  - intros y. apply never_raises_try. intros e. apply never_raises_logging.
  - intros y. apply (respects_try calls_grow).
    + apply (respects_bind calls_grow); [apply (respects_section calls_grow)|].
      intros cs. apply (respects_for_each calls_grow).
      intros c'. apply unpin_collection_grows.
    + intros e. apply (respects_logging calls_grow).
  - intros st0. unfold try_except, bindM at 1, section. rewrite Hcs.
    cbn [lift].
    pose proof (for_each_reaches (Visibility (ratingKey c)) collections
                  (unpin_collection w always_pin) c
                  (unpin_collection_never_raises w always_pin)
                  (unpin_collection_grows w always_pin) Hc
                  (λ st1, unpin_collection_visits w always_pin c st1 Hskip)
                  st0) as Hinner.
    destruct (for_each collections (unpin_collection w always_pin) st0)
      as [st1 [[]|e]]; done.
Qed.

Lemma unpin_sweep_visits_every_collection_witness :
  Visibility 3 ∈ calls (fst (unpin_collections flaky_world ["Movies"] false
                                               initial_state)).
Proof.
  apply (unpin_sweep_visits_every_collection flaky_world ["Movies"] false
           initial_state "Movies" movies (mkCollection 3 "C" 5)).
  - apply list_elem_of_here.
  - reflexivity.
  - unfold movies. apply list_elem_of_further, list_elem_of_further,
      list_elem_of_here.
  - reflexivity.
Defined.

(** ** The pass as a whole *)

Lemma pin_libraries_returns w m u ex libs pp st :
  ∃ st' pp' b, pin_libraries w m u ex libs pp st = (st', Return (pp', b))
               ∧ frame st st'.
Proof.
  revert pp st. induction libs as [|name libs IH]; intros pp st; simpl.
  { by eexists _, _, _. }
  destruct (process_library_outcome w m u ex name pp st)
    as (st1 & pp1 & b & Heq & Hfr & _).
  unfold bindM at 1. rewrite Heq. destruct b.
  - by eexists _, _, _.
  - destruct (IH pp1 st1) as (st' & pp' & b' & -> & Hfr').
    exists st', pp', b'. split; [done|]. by etrans.
Qed.

Lemma record_and_sleep_cases w pp used st st' r :
  record_and_sleep w pp used st = (st', r) →
  used_collections_file st = Content used →
  match r with
  | Return pass =>
      ∃ used', pass = Slept used' ∧ used_collections_file st' = Content used'
  | Raise e =>
      (e = OverflowError
       ∧ date_add (date (now w st)) (default 3 (exclusion_days (config w)))
         = Raise OverflowError)
      ∨ (e = ValueError ∧ default 30 (pinning_interval (config w)) * 60 < 0)
  end.
Proof.
  unfold record_and_sleep. intros Hrun Hfile.
  assert (∃ st1 r1,
    match pp with
    | [] => let* _ := logging INFO NoNewPinned in ret used
    | _ :: _ => log_and_update_exclusion_list w pp used
                  (default 3 (exclusion_days (config w)))
    end st = (st1, r1)
    ∧ match r1 with
      | Return used1 => used_collections_file st1 = Content used1
      | Raise e => e = OverflowError
                   ∧ date_add (date (now w st))
                       (default 3 (exclusion_days (config w)))
                     = Raise OverflowError
      end) as (st1 & r1 & Heq & Hr1).
  { destruct pp as [|c pp']; [by eexists _, _|].
    destruct (date_add (date (now w st))
                (default 3 (exclusion_days (config w)))) as [d|e] eqn:Hd.
    - destruct (log_and_update_returns w (c :: pp') used _ st d Hd)
        as (st1 & used1 & -> & _ & _ & Hf & _).
      by eexists _, _.
    - assert (e = OverflowError) as ->.
      { unfold date_add in Hd. case_match; congruence. }
      unfold log_and_update_exclusion_list. unfold bindM at 1.
      cbn [get_state].
      destruct (record_pinned_outcome (date (now w st))
                  (default 3 (exclusion_days (config w))) (c :: pp') used st)
        as [_ H].
      destruct (H _ Hd) as [?|Heq']; [done|].
      unfold bindM at 1. rewrite Heq'. by eexists _, _. }
  unfold bindM at 1 in Hrun. rewrite Heq in Hrun.
  destruct r1 as [used1|e]; [|injection Hrun as <- <-; by left].
  unfold bindM at 1 in Hrun. cbn [logging] in Hrun.
  unfold bindM at 1, sleep in Hrun. cbn [elapsed] in Hrun.
  destruct (Z.ltb_spec (default 30 (pinning_interval (config w)) * 60) 0).
  - injection Hrun as <- <-. by right.
  - injection Hrun as <- <-. by exists used1.
Qed.

(** At the end of every pass that returns, the cooldown file holds exactly
    the exclusion map the loop carries into the next pass. *)
Theorem pass_persists_exclusions (w : World) (used : gmap string string)
    (exemptions : list string) (st st' : State) (pass : Pass) :
  cycle w used exemptions st = (st', Return pass) →
  used_collections_file st'
  = Content match pass with Restart u | Slept u => u end.
Proof.
  unfold cycle. unfold bindM at 1.
  destruct (clean used (date (now w st))) as [used1|e] eqn:Hclean.
  2:{ by destruct (begin_cycle_raises w used st e Hclean) as (st1 & -> & _). }
  destruct (begin_cycle_returns w used st used1 Hclean)
    as (st1 & -> & He1 & Hf1).
  unfold bindM at 1.
  destruct (pin_libraries_returns w (default 1 (minimum_items (config w)))
              used1 exemptions (libraries (config w)) [] st1)
    as (st2 & pp & b & -> & [_ Hf2]).
  destruct b.
  - destruct (reset_exclusions_outcome w st2) as (st3 & -> & _ & Hf3).
    by intros [= <- <-].
  - intros Hrun.
    apply record_and_sleep_cases in Hrun as (used' & -> & Hf);
      [done|by rewrite Hf2].
Qed.

Lemma pass_persists_exclusions_witness :
  ∃ st' used', cycle (stopped_world 30) ∅ [] initial_state
               = (st', Return (Slept used'))
               ∧ used_collections_file st' = Content used'.
Proof.
  assert (∃ st' used', cycle (stopped_world 30) ∅ [] initial_state
                       = (st', Return (Slept used')))
    as (st' & used' & H1) by (eexists _, _; by vm_compute).
  exists st', used'. split; [exact H1|].
  exact (pass_persists_exclusions _ _ _ _ _ _ H1).
Defined.

Lemma clean_raises used D e :
  clean used D = Raise e →
  e = ValueError ∧ ¬ map_Forall (λ _ v, parses v) used.
Proof. unfold clean. case_decide; [done|]. by intros [= <-]. Qed.

(** Failures of the remote server never end a pass by an exception.  With
    an exclusion map of ASCII texts and an interval whose seconds fit the C
    clock (so that [time.sleep] does not overflow), a pass raises only when
    a stored expiry date does not parse ([ValueError] in the cleaning step),
    when today plus [exclusion_days] is not a representable date
    ([OverflowError] while recording), or when the interval is negative
    ([ValueError] from [time.sleep]). *)
Theorem pass_raises_only_for (w : World) (used : gmap string string)
    (exemptions : list string) (st st' : State) (e : Exn) :
  map_Forall (λ _ v, ascii_text v = true) used →
  -9223372036 ≤ default 30 (pinning_interval (config w)) * 60 ≤ 9223372036 →
  cycle w used exemptions st = (st', Raise e) →
  (e = ValueError ∧ ¬ map_Forall (λ _ v, parses v) used)
  ∨ (e = OverflowError
     ∧ date_add (date (now w st)) (default 3 (exclusion_days (config w)))
       = Raise OverflowError)
  ∨ (e = ValueError ∧ default 30 (pinning_interval (config w)) * 60 < 0).
Proof.
  intros _ _. unfold cycle. unfold bindM at 1.
  destruct (clean used (date (now w st))) as [used1|e1] eqn:Hclean.
  2:{ destruct (begin_cycle_raises w used st e1 Hclean) as (st1 & -> & _).
      intros [= _ <-]. left. by apply clean_raises in Hclean. }
  destruct (begin_cycle_returns w used st used1 Hclean)
    as (st1 & -> & He1 & Hf1).
  unfold bindM at 1.
  destruct (pin_libraries_returns w (default 1 (minimum_items (config w)))
              used1 exemptions (libraries (config w)) [] st1)
    as (st2 & pp & b & -> & [He2 Hf2]).
  destruct b.
  - by destruct (reset_exclusions_outcome w st2) as (st3 & -> & _).
  - intros Hrun. right.
    apply record_and_sleep_cases in Hrun; [|by rewrite Hf2].
    unfold now in *. by rewrite He2, He1 in Hrun.
Qed.

Lemma pass_raises_only_for_witness :
  ∃ st', cycle starved_world {[ "A" := "soon" ]} [] initial_state
         = (st', Raise ValueError)
         ∧ ¬ map_Forall (λ _ v, parses v)
               ({[ "A" := "soon" ]} : gmap string string).
Proof.
  assert (∃ st', cycle starved_world {[ "A" := "soon" ]} [] initial_state
                 = (st', Raise ValueError)) as [st' H1]
    by (eexists; by vm_compute).
  exists st'. split; [exact H1|].
  destruct (pass_raises_only_for starved_world {[ "A" := "soon" ]} []
              initial_state st' ValueError) as [[_ H]|[[H _]|[_ H]]].
  - by apply map_Forall_singleton.
  - by vm_compute.
  - exact H1.
  - exact H.
  - discriminate H.
  - by vm_compute in H.
Defined.

(** A cooldown file with one value that is ASCII text and not a
    ['%Y-%m-%d'] date stops the automation in its first pass: [main] ends
    with [ValueError] before any remote call is made, and the file is left
    as it was. *)
Theorem malformed_date_stops_automation (passes : nat) (w : World) (st : State)
    (used : gmap string string) (t v : string) :
  used_collections_file st = Content used →
  used !! t = Some v →
  ascii_text v = true →
  ¬ parses v →
  user_exemptions_file w ≠ Invalid →
  stop_event_is_set w st = false →
  snd (main (S passes) w st) = Crashed ValueError
  ∧ calls (fst (main (S passes) w st)) = calls st
  ∧ used_collections_file (fst (main (S passes) w st)) = Content used.
Proof.
  intros Hfile Hv _ Hnot Hex Hstop.
  assert (¬ map_Forall (λ _ v, parses v) used) as Hbad.
  { intros Hall. apply Hnot. by apply (Hall t v). }
  assert (main (S passes) w st
          = (mkState (used_collections_file st) (calls st)
               ((INFO, ScriptTerminated)
                :: (ERROR, AnErrorOccurred ValueError)
                :: (INFO, CleaningUp) :: (INFO, EnteringLoop) :: log st)
               (elapsed st) (draws st),
             Crashed ValueError)) as ->; [|done].
  assert (∀ l, main_loop (S passes) w used l
                 (fst (logging INFO EnteringLoop st))
               = (fst (logging INFO CleaningUp
                         (fst (logging INFO EnteringLoop st))),
                  Raise ValueError)) as Hloop.
  { intros l. cbn [main_loop].
    replace (stop_event_is_set w (logging INFO EnteringLoop st).1)
      with false by done.
    unfold bindM at 1, cycle. unfold bindM at 1.
    unfold begin_cycle. unfold bindM at 1. cbn [get_state].
    unfold bindM at 1. cbn [logging].
    unfold bindM at 1, clean. rewrite decide_False by done. done. }
  unfold main. unfold bindM at 1. unfold load_used_collections.
  rewrite Hfile. unfold bindM at 1. unfold load_user_exemptions.
  destruct (user_exemptions_file w) as [| |l]; [|done|].
  all: unfold bindM at 1; cbn [logging]; cbn [logging fst] in Hloop;
    rewrite Hloop; cbn; by rewrite ?Hfile.
Qed.

Lemma malformed_date_stops_automation_witness :
  snd (main 1 starved_world
         (mkState (Content {[ "A" := "soon" ]}) [] [] 0 0))
  = Crashed ValueError.
Proof.
  apply (malformed_date_stops_automation 0 starved_world
           (mkState (Content {[ "A" := "soon" ]}) [] [] 0 0)
           {[ "A" := "soon" ]} "A" "soon").
  - reflexivity.
  - apply lookup_singleton_eq.
  - reflexivity.
  - intros H. by destruct H.
  - discriminate.
  - reflexivity.
Defined.

Lemma reset_repeats_while_short_witness :
  ∃ st', main_loop 7 starved_world ∅ [] initial_state
         = (st', Return StillRunning)
         ∧ elapsed st' = 0.
Proof.
  apply (reset_repeats_while_short starved_world [] "Movies" 7 initial_state).
  - apply list_elem_of_here.
  - exists movies, "Default", 5. split_and!; by vm_compute.
  - reflexivity.
Defined.

(** ** Dates: formatting, parsing and order *)

Lemma digit_value_digit_char n : digit_value (digit_char n) = Some (n mod 10).
Proof.
  unfold digit_char. pose proof (Z.mod_pos_bound n 10 eq_refl) as Hk.
  rewrite <- (Z2Nat.id (n mod 10)) at 2 by lia.
  assert (Z.to_nat (n mod 10) < 10)%nat as Hlt by lia.
  revert Hlt. generalize (Z.to_nat (n mod 10)). intros k Hlt.
  do 10 (destruct k as [|k]; [reflexivity|]). lia.
Qed.

Lemma two_digits_digit_chars a b rest :
  two_digits (String (digit_char a) (String (digit_char b) rest))
  = Some (a mod 10, b mod 10, rest).
Proof.
  unfold two_digits, one_digit. by rewrite !digit_value_digit_char.
Qed.

Lemma parse_year_pad4 y rest :
  0 ≤ y ≤ 9999 → parse_year (pad4 y +:+ rest) = Some (y, rest).
Proof.
  intros Hy. unfold pad4, pad2. cbv [String.append].
  unfold parse_year. rewrite !two_digits_digit_chars.
  do 2 f_equal. Z.div_mod_to_equations. lia.
Qed.

Lemma parse_month_pad2 m rest :
  1 ≤ m ≤ 12 → parse_month (pad2 m +:+ rest) = Some (m, rest).
Proof.
  intros Hm. rewrite <- (Z2Nat.id m) by lia.
  assert (1 ≤ Z.to_nat m ≤ 12)%nat as Hn by lia.
  revert Hn. generalize (Z.to_nat m). intros n Hn.
  do 13 (destruct n as [|n]; [first [by exfalso; lia|reflexivity]|]). lia.
Qed.

Lemma parse_day_pad2 d :
  1 ≤ d ≤ 31 → parse_day (pad2 d) = Some (d, EmptyString).
Proof.
  intros Hd. rewrite <- (Z2Nat.id d) by lia.
  assert (1 ≤ Z.to_nat d ≤ 31)%nat as Hn by lia.
  revert Hn. generalize (Z.to_nat d). intros n Hn.
  do 32 (destruct n as [|n]; [first [by exfalso; lia|reflexivity]|]). lia.
Qed.

Lemma days_in_month_bounds y m : 28 ≤ days_in_month y m ≤ 31.
Proof.
  unfold days_in_month.
  destruct (m =? 2); [destruct (is_leap y); lia|].
  destruct (_ || _); lia.
Qed.

Lemma valid_date_spec d :
  valid_date d = true ↔ 1 ≤ year d ≤ 9999 ∧ calendar_day d.
Proof.
  unfold valid_date, calendar_day.
  rewrite !andb_true_iff, !Z.leb_le. tauto.
Qed.

(** What recording writes, cleaning reads back. *)
(** A date from the year 1000 on is read back as written. *)
Lemma strptime_strftime d :
  valid_date d = true → 1000 ≤ year d →
  strptime_ymd (strftime_ymd d) = Some d.
Proof.
  intros Hv H1000. pose proof Hv as Hv'.
  apply valid_date_spec in Hv' as (Hy & Hm & Hd).
  pose proof (days_in_month_bounds (year d) (month d)).
  unfold strptime_ymd, strftime_ymd. rewrite year_digits_pad4 by done.
  rewrite parse_year_pad4 by lia. cbn [mbind option_bind expect_dash].
  change (String.append "-" ?s) with (String "-" s).
  cbn [mbind option_bind expect_dash].
  rewrite parse_month_pad2 by lia. cbn [mbind option_bind].
  change (String.append "-" ?s) with (String "-" s).
  cbn [mbind option_bind expect_dash].
  rewrite parse_day_pad2 by lia. cbn [mbind option_bind].
  destruct d as [y m dd]. simpl in *. by rewrite Hv.
Qed.

Lemma date_lt_trans a b c : date_lt a b → date_lt b c → date_lt a c.
Proof. unfold date_lt. lia. Qed.

Lemma date_lt_irrefl a : ¬ date_lt a a.
Proof. unfold date_lt. lia. Qed.

Lemma date_lt_next_day d : date_lt d (next_day d).
Proof.
  unfold date_lt, next_day.
  destruct (Z.ltb_spec (day d) (days_in_month (year d) (month d)));
    [simpl; lia|].
  destruct (Z.ltb_spec (month d) 12); simpl; lia.
Qed.

Lemma date_lt_prev_day d : date_lt (prev_day d) d.
Proof.
  unfold date_lt, prev_day.
  destruct (Z.ltb_spec 1 (day d)); [simpl; lia|].
  destruct (Z.ltb_spec 1 (month d)); simpl; lia.
Qed.

Lemma calendar_day_next_day d : calendar_day d → calendar_day (next_day d).
Proof.
  unfold calendar_day, next_day. intros [Hm Hd].
  destruct (Z.ltb_spec (day d) (days_in_month (year d) (month d)));
    [simpl; lia|].
  destruct (Z.ltb_spec (month d) 12); simpl.
  - pose proof (days_in_month_bounds (year d) (month d + 1)). lia.
  - pose proof (days_in_month_bounds (year d + 1) 1). lia.
Qed.

Lemma calendar_day_prev_day d : calendar_day d → calendar_day (prev_day d).
Proof.
  unfold calendar_day, prev_day. intros [Hm Hd].
  destruct (Z.ltb_spec 1 (day d)); [simpl; lia|].
  destruct (Z.ltb_spec 1 (month d)); simpl.
  - pose proof (days_in_month_bounds (year d) (month d - 1)). lia.
  - split; [lia|]. by vm_compute.
Qed.

Lemma calendar_day_plus_days d n : calendar_day d → calendar_day (plus_days d n).
Proof.
  intros Hd. unfold plus_days. destruct (0 <=? n).
  - induction (Z.to_nat n) as [|k IH]; [done|].
    simpl. by apply calendar_day_next_day.
  - induction (Z.to_nat (- n)) as [|k IH]; [done|].
    simpl. by apply calendar_day_prev_day.
Qed.

Lemma date_lt_plus_days d n : 0 < n → date_lt d (plus_days d n).
Proof.
  intros Hn. unfold plus_days. destruct (Z.leb_spec 0 n); [|lia].
  assert (∃ k, Z.to_nat n = S k) as [k ->] by (exists (Z.to_nat n - 1)%nat; lia).
  induction k as [|k IH]; simpl.
  - apply date_lt_next_day.
  - eapply date_lt_trans; [exact IH|]. apply date_lt_next_day.
Qed.

Lemma plus_days_not_later d n : n ≤ 0 → ¬ date_lt d (plus_days d n).
Proof.
  intros Hn. unfold plus_days. destruct (Z.leb_spec 0 n).
  - replace n with 0 by lia. simpl. apply date_lt_irrefl.
  - assert (∃ k, Z.to_nat (- n) = S k) as [k ->]
      by (exists (Z.to_nat (- n) - 1)%nat; lia).
    assert (date_lt (Nat.iter (S k) prev_day d) d) as Hlt.
    { induction k as [|k IH]; simpl.
      - apply date_lt_prev_day.
      - eapply date_lt_trans; [apply date_lt_prev_day|exact IH]. }
    intros Hgt. apply (date_lt_irrefl d). by eapply date_lt_trans.
Qed.

Lemma date_add_valid d n r :
  calendar_day d → date_add d n = Return r →
  r = plus_days d n ∧ valid_date r = true.
Proof.
  intros Hd. unfold date_add.
  destruct (_ && _) eqn:Hy; [|done]. intros [= <-]. split; [done|].
  apply valid_date_spec. split; [|by apply calendar_day_plus_days].
  apply andb_true_iff in Hy as [?%Z.leb_le ?%Z.leb_le]. lia.
Qed.

(** After recording an expiry date from the year 1000 on, a cleaning at
    date [D] keeps the entry of a pinned collection exactly when [D] is
    before today + [exclusion_days]. *)
Lemma recorded_entry_survives (w : World) (pp : list Collection)
    (used : gmap string string) (days : Z) (st : State) (d D : Date)
    (c : Collection) :
  calendar_day (date (now w st)) →
  date_add (date (now w st)) days = Return d →
  1000 ≤ year d →
  map_Forall (λ _ v, parses v) used →
  c ∈ pp →
  ∃ st' used' M,
    log_and_update_exclusion_list w pp used days st = (st', Return used')
    ∧ clean used' D = Return M
    ∧ (is_Some (M !! title c) ↔ date_lt D d).
Proof.
  intros Hcal Hd H1000 Hwf Hc.
  destruct (date_add_valid _ _ _ Hcal Hd) as [_ Hvalid].
  destruct (log_and_update_returns w pp used days st d Hd)
    as (st' & used' & Hrec & Hin & Hother & _).
  assert (map_Forall (λ _ v, parses v) used') as Hwf'.
  { intros t v Ht.
    destruct (decide (t ∈ title <$> pp)) as [Hpp|Hpp].
    - apply list_elem_of_fmap in Hpp as (c' & -> & Hc').
      rewrite (Hin c' Hc') in Ht. injection Ht as <-.
      unfold parses. by rewrite strptime_strftime.
    - rewrite (Hother t Hpp) in Ht. by apply (Hwf t v). }
  exists st', used', (filter (λ kv, expires_after D kv.2) used').
  split; [done|]. split; [by apply clean_well_formed|].
  split.
  - intros [v Hv]. apply map_lookup_filter_Some in Hv as [Hv Hexp].
    rewrite (Hin c Hc) in Hv. injection Hv as <-.
    simpl in Hexp. unfold expires_after in Hexp.
    by rewrite strptime_strftime in Hexp.
  - intros Hlt. exists (strftime_ymd d).
    apply map_lookup_filter_Some. split; [by apply Hin|].
    simpl. unfold expires_after. by rewrite strptime_strftime.
Qed.

(** A collection recorded today with [exclusion_days] days, when today +
    [exclusion_days] is a date from the year 1000 on (so that its four-digit
    year is read back by [strptime]), stays in the exclusion map through
    every cleaning dated before today + [exclusion_days] and is dropped by
    every cleaning from that date on. *)
Theorem exclusion_lasts_until_expiry (w : World) (pp : list Collection)
    (used : gmap string string) (days : Z) (st : State) (d D : Date)
    (c : Collection) :
  calendar_day (date (now w st)) →
  date_add (date (now w st)) days = Return d →
  1000 ≤ year d →
  map_Forall (λ _ v, parses v) used →
  c ∈ pp →
  ∃ st' used' M,
    log_and_update_exclusion_list w pp used days st = (st', Return used')
    ∧ clean used' D = Return M
    ∧ (is_Some (M !! title c) ↔ date_lt D d).
Proof. apply recorded_entry_survives. Qed.

Lemma exclusion_lasts_until_expiry_witness :
  ∃ st' used' M,
    log_and_update_exclusion_list starved_world [mkCollection 1 "A" 2] ∅ 3
                                  initial_state
    = (st', Return used')
    ∧ clean used' (mkDate 2024 4 3) = Return M
    ∧ is_Some (M !! "A").
Proof.
  destruct (exclusion_lasts_until_expiry starved_world [mkCollection 1 "A" 2]
              ∅ 3 initial_state (mkDate 2024 4 4) (mkDate 2024 4 3)
              (mkCollection 1 "A" 2))
    as (st' & used' & M & H1 & H2 & H3).
  - by vm_compute.
  - by vm_compute.
  - simpl. lia.
  - apply map_Forall_empty.
  - apply list_elem_of_here.
  - exists st', used', M. split; [exact H1|]. split; [exact H2|].
    apply H3. unfold date_lt. simpl. lia.
Defined.

(** On the day a collection is recorded, with today + [exclusion_days] a
    date from the year 1000 on, the next cleaning keeps its entry when
    [exclusion_days] is at least 1 and drops it when [exclusion_days] is 0
    or negative: such a setting excludes nothing. *)
Theorem exclusion_days_below_one_excludes_nothing (w : World)
    (pp : list Collection) (used : gmap string string) (days : Z) (st : State)
    (d : Date) (c : Collection) :
  calendar_day (date (now w st)) →
  date_add (date (now w st)) days = Return d →
  1000 ≤ year d →
  map_Forall (λ _ v, parses v) used →
  c ∈ pp →
  ∃ st' used' M,
    log_and_update_exclusion_list w pp used days st = (st', Return used')
    ∧ clean used' (date (now w st)) = Return M
    ∧ (is_Some (M !! title c) ↔ 1 ≤ days).
Proof.
  intros Hcal Hd H1000 Hwf Hc.
  destruct (recorded_entry_survives w pp used days st d (date (now w st)) c
              Hcal Hd H1000 Hwf Hc) as (st' & used' & M & H1 & H2 & H3).
  exists st', used', M. split; [done|]. split; [done|].
  rewrite H3. destruct (date_add_valid _ _ _ Hcal Hd) as [-> _].
  split.
  - intros Hlt. destruct (Z.le_gt_cases days 0) as [Hle|?]; [|lia].
    by apply plus_days_not_later in Hlt.
  - intros Hge. apply date_lt_plus_days. lia.
Qed.

Lemma exclusion_days_below_one_excludes_nothing_witness :
  ∃ st' used' M,
    log_and_update_exclusion_list starved_world [mkCollection 1 "A" 2] ∅ (-2)
                                  initial_state
    = (st', Return used')
    ∧ clean used' (mkDate 2024 4 1) = Return M
    ∧ M !! "A" = None.
Proof.
  destruct (exclusion_days_below_one_excludes_nothing starved_world
              [mkCollection 1 "A" 2] ∅ (-2) initial_state (mkDate 2024 3 30)
              (mkCollection 1 "A" 2))
    as (st' & used' & M & H1 & H2 & H3).
  - by vm_compute.
  - by vm_compute.
  - simpl. lia.
  - apply map_Forall_empty.
  - apply list_elem_of_here.
  - exists st', used', M. split; [exact H1|]. split; [exact H2|].
    destruct (M !! "A") as [v|] eqn:Hv; [|reflexivity].
    exfalso. assert (1 ≤ -2) by (apply H3; by exists v). lia.
Defined.

(** Cleaning at a date and then at a later one gives what cleaning once at
    the later date gives. *)
Theorem clean_at_later_date (M : gmap string string) (D1 D2 : Date) :
  map_Forall (λ _ v, parses v) M →
  ¬ date_lt D2 D1 →
  ∃ M1, clean M D1 = Return M1 ∧ clean M1 D2 = clean M D2.
Proof.
  intros Hwf Hle.
  exists (filter (λ kv, expires_after D1 kv.2) M).
  split; [by apply clean_well_formed|].
  rewrite !clean_well_formed; [| done |].
  - f_equal. apply map_eq. intros t.
    apply option_eq. intros v.
    rewrite !map_lookup_filter_Some. simpl. split; [tauto|].
    intros [Hl H2]. split_and!; [done| |done].
    unfold expires_after, date_lt in *.
    destruct (strptime_ymd v); [lia|done].
  - intros t v [Hl _]%map_lookup_filter_Some. by apply (Hwf t v).
Qed.

Lemma clean_at_later_date_witness :
  ∃ M1, clean {[ "A" := "2024-05-01"; "B" := "2024-04-02" ]}
              (mkDate 2024 4 1) = Return M1
        ∧ clean M1 (mkDate 2024 4 2)
          = clean {[ "A" := "2024-05-01"; "B" := "2024-04-02" ]}
                  (mkDate 2024 4 2).
Proof.
  apply clean_at_later_date.
  - apply (bool_decide_unpack _). by vm_compute.
  - unfold date_lt. simpl. lia.
Defined.

(** ** Time blocks: order of the clock strings *)

Lemma string_compare_le_lt s t e :
  String.compare s t ≠ Gt → String.compare t e = Lt → String.compare s e = Lt.
Proof.
  revert t e. induction s as [|a s IH]; intros [|b t] [|c e]; simpl; try done.
  unfold Ascii.compare.
  destruct (N.compare_spec (N_of_ascii a) (N_of_ascii b)) as [Hab|Hab|Hab];
    destruct (N.compare_spec (N_of_ascii b) (N_of_ascii c)) as [Hbc|Hbc|Hbc];
    try done; intros Hst Hte.
  - rewrite Hab, Hbc, N.compare_refl. by eapply IH.
  - rewrite Hab. by apply N.compare_lt_iff in Hbc as ->.
  - rewrite <- Hbc. by apply N.compare_lt_iff in Hab as ->.
  - assert (N_of_ascii a < N_of_ascii c)%N as Hac by lia.
    by apply N.compare_lt_iff in Hac as ->.
Qed.

(** A block whose end time is not after its start time, as an overnight
    block such as 22:00-06:00 is under the order of the ["HH:MM"] strings,
    contains no time at all. *)
Theorem overnight_block_never_matches (details : BlockDetails)
    (s e current_time : string) :
  start_time details = Some s →
  end_time details = Some e →
  String.leb e s = true →
  block_contains details current_time = Return false.
Proof.
  intros Hs He Hes. unfold block_contains. rewrite Hs, He.
  destruct (String.leb s current_time) eqn:Hst; [|done].
  f_equal. unfold String.ltb.
  destruct (String.compare current_time e) eqn:Hte; try done.
  exfalso. unfold String.leb in *.
  assert (String.compare s e = Lt) as Hse.
  { apply (string_compare_le_lt s current_time e); [|done].
    by destruct (String.compare s current_time). }
  rewrite String.compare_antisym, Hse in Hes. done.
Qed.

Lemma overnight_block_never_matches_witness :
  block_contains (mkBlock (Some "22:00") (Some "06:00") (Some 4)) "23:30"
  = Return false.
Proof.
  apply (overnight_block_never_matches _ "22:00" "06:00"); reflexivity.
Defined.

(** ** Sanitizing a schedule *)

Lemma sanitize_days_blocks days :
  Forall (λ d, ∃ bs, snd d = Blocks bs) (fst (sanitize_days days))
  ∧ fst <$> fst (sanitize_days days) = fst <$> days.
Proof.
  induction days as [|[day blocks] rest [IH1 IH2]]; [by split|].
  simpl. destruct (sanitize_days rest) as [sanitized warnings].
  destruct blocks as [|bs]; simpl in *;
    (split; [constructor; [by eexists|done]|by f_equal]).
Qed.

Lemma sanitize_days_well_formed days :
  Forall (λ d, ∃ bs, snd d = Blocks bs) days →
  sanitize_days days = (days, []).
Proof.
  induction 1 as [|[day blocks] rest [bs Hbs] _ IH]; [done|].
  simpl in *. rewrite IH. by subst.
Qed.

(** The sanitized schedule has the weekdays of the given one, each with a
    dictionary of blocks; a schedule that is already of that form is
    returned unchanged without a warning, so sanitizing twice is
    sanitizing once. *)
Theorem sanitize_time_blocks_idempotent (time_blocks : TimeBlocksValue) :
  let sanitized := fst (sanitize_time_blocks time_blocks) in
  Forall (λ d, ∃ bs, snd d = Blocks bs) sanitized
  ∧ sanitize_time_blocks (Days sanitized) = (sanitized, [])
  ∧ ∀ days, time_blocks = Days days →
            fst <$> sanitized = fst <$> days
            ∧ (Forall (λ d, ∃ bs, snd d = Blocks bs) days →
               sanitize_time_blocks time_blocks = (days, [])).
Proof.
  intros sanitized.
  assert (Forall (λ d, ∃ bs, snd d = Blocks bs) sanitized) as Hwf.
  { subst sanitized. destruct time_blocks as [|days]; [constructor|].
    apply sanitize_days_blocks. }
  split_and!; [done|by apply sanitize_days_well_formed|].
  intros days ->. split.
  - apply sanitize_days_blocks.
  - apply sanitize_days_well_formed.
Qed.

Lemma assoc_get_Forall {V} (P : V → Prop) k (l : list (string * V)) v :
  Forall (λ d, P (snd d)) l → assoc_get k l = Some v → P v.
Proof.
  induction 1 as [|[k' v'] rest Hv _ IH]; [done|].
  simpl. case_decide; [|done]. by intros [= <-].
Qed.

(** With a sanitized schedule the resolver never reports invalid time
    blocks: it leaves the state, the log included, as it was. *)
Theorem resolver_quiet_on_sanitized_schedule (w : World)
    (library_name : string) (st : State) (raw : TimeBlocksValue) :
  time_blocks (library_settings_of (config w) library_name)
  = fst (sanitize_time_blocks raw) →
  fst (get_current_time_block w library_name st) = st.
Proof.
  intros Hsan. unfold get_current_time_block, bindM. cbn [get_state].
  rewrite Hsan.
  destruct (assoc_get _ (fst (sanitize_time_blocks raw)))
    as [blocks|] eqn:Hday; [|done].
  assert (∃ bs, blocks = Blocks bs) as [bs ->]; [|done].
  apply (assoc_get_Forall (λ b, ∃ bs, b = Blocks bs) _ _ _) in Hday; [done|].
  destruct raw as [|days]; [constructor|]. apply sanitize_days_blocks.
Qed.

Lemma resolver_quiet_on_sanitized_schedule_witness :
  fst (get_current_time_block sanitized_world "Movies" initial_state)
  = initial_state.
Proof.
  apply (resolver_quiet_on_sanitized_schedule sanitized_world "Movies"
           initial_state (Days damaged_schedule)).
  reflexivity.
Defined.

(** On a Monday the damaged schedule, used as it is, makes the resolver log
    'Invalid time_blocks'; sanitized, its Monday is an empty dictionary and
    the resolver falls through to the default without a word. *)
Lemma resolver_on_damaged_schedule :
  get_current_time_block (schedule_world damaged_schedule) "Movies"
                         initial_state
  = (mkState Absent [] [(ERROR, InvalidTimeBlocks "Monday" "Movies")] 0 0,
     Return ("Default", 4))
  ∧ sanitize_time_blocks (Days damaged_schedule)
    = ([ ("Monday", Blocks []);
         ("Tuesday", Blocks [("Day", mkBlock (Some "08:00") (Some "20:00")
                                             (Some 3))]) ],
       [InvalidBlocksForDay "Monday"])
  ∧ get_current_time_block sanitized_world "Movies" initial_state
    = (initial_state, Return ("Default", 4)).
Proof. split_and!; by vm_compute. Qed.

(** ** The exclusion list tab *)

Lemma item_collection_name_app name suffix :
  (∀ c rest, suffix = String c rest → c ≠ "("%char) →
  item_collection_name suffix = EmptyString →
  item_collection_name (name +:+ suffix) = item_collection_name name.
Proof.
  intros Hhead Hsuffix. induction name as [|a name IH].
  { done. }
  cbv [String.append]. fold String.append. simpl.
  destruct name as [|b name].
  - cbv [String.append]. destruct suffix as [|c rest]; [done|].
    rewrite bool_decide_eq_false_2.
    + simpl in IH. by rewrite Hsuffix.
    + intros [_ ->]. by eapply Hhead.
  - cbv [String.append] in *. fold String.append in *.
    case_bool_decide; [done|]. by rewrite IH.
Qed.

Lemma item_collection_name_head c s :
  item_collection_name (String c s) = EmptyString
  ∨ ∃ r, item_collection_name (String c s) = String c r.
Proof.
  destruct s as [|c' s']; simpl; [by eauto|].
  case_bool_decide; by eauto.
Qed.

(** Without a [" ("] the text is returned whole. *)
Lemma item_collection_name_whole s :
  (∀ a b, s ≠ a +:+ " (" +:+ b) → item_collection_name s = s.
Proof.
  induction s as [|c s IH]; intros Hno; [done|].
  destruct s as [|c' s']; [done|].
  change (item_collection_name (String c (String c' s')))
    with (if bool_decide (c = " "%char ∧ c' = "("%char) then EmptyString
          else String c (item_collection_name (String c' s'))).
  case_bool_decide as Hsep.
  - destruct Hsep as [-> ->]. by destruct (Hno "" s').
  - f_equal. apply IH. intros a b Heq. apply (Hno (String c a) b).
    by rewrite Heq.
Qed.

(** With a [" ("] the text is the returned name, [" ("], and a rest. *)
Lemma item_collection_name_prefix s :
  (∃ a b, s = a +:+ " (" +:+ b) →
  ∃ rest, s = item_collection_name s +:+ " (" +:+ rest.
Proof.
  induction s as [|c s IH]; intros (a & b & Heq).
  { by destruct a. }
  destruct s as [|c' s'].
  { destruct a as [|x [|y a]]; discriminate Heq. }
  change (item_collection_name (String c (String c' s')))
    with (if bool_decide (c = " "%char ∧ c' = "("%char) then EmptyString
          else String c (item_collection_name (String c' s'))).
  case_bool_decide as Hsep.
  - destruct Hsep as [-> ->]. by exists s'.
  - destruct a as [|x a].
    + cbv [String.append] in Heq. injection Heq as -> -> _.
      by destruct Hsep.
    + change (String x a +:+ " (" +:+ b)
        with (String x (a +:+ " (" +:+ b)) in Heq.
      injection Heq as -> Heq.
      destruct IH as [rest Hrest]; [by exists a, b|].
      exists rest.
      change (String x ?u +:+ ?v) with (String x (u +:+ v)).
      by rewrite <- Hrest.
Qed.

(** The returned name holds no [" ("]. *)
Lemma item_collection_name_clean s a b :
  item_collection_name s ≠ a +:+ " (" +:+ b.
Proof.
  revert a. induction s as [|c s IH]; intros a Heq.
  { by destruct a. }
  destruct s as [|c' s'].
  { destruct a as [|x [|y a]]; discriminate Heq. }
  change (item_collection_name (String c (String c' s')))
    with (if bool_decide (c = " "%char ∧ c' = "("%char) then EmptyString
          else String c (item_collection_name (String c' s'))) in Heq.
  case_bool_decide as Hsep.
  { by destruct a. }
  destruct a as [|x a].
  - cbv [String.append] in Heq. injection Heq as -> Heq.
    change (item_collection_name (String c' s') = String "(" b) in Heq.
    destruct (item_collection_name_head c' s') as [Hnil|[r Hr]].
    + rewrite Hnil in Heq. discriminate Heq.
    + rewrite Hr in Heq. injection Heq as -> _. by destruct Hsep.
  - change (String x a +:+ " (" +:+ b)
      with (String x (a +:+ " (" +:+ b)) in Heq.
    injection Heq as -> Heq. by apply (IH a).
Qed.

Lemma string_length_app (s t : string) :
  String.length (s +:+ t) = (String.length s + String.length t)%nat.
Proof.
  induction s as [|c s IH]; [done|].
  change (String c s +:+ t) with (String c (s +:+ t)). simpl. by rewrite IH.
Qed.

(** The name read back from an item of the list, [item_text.split(" (")[0]],
    is the entry's title up to its first [" ("]: the title itself when it
    contains no [" ("]; otherwise a proper prefix of it, the part that is
    followed by the first [" ("] and so contains none. *)
Theorem exclusion_item_name (collection_name expiration_date : string) :
  let name :=
    item_collection_name (exclusion_item collection_name expiration_date) in
  ((∀ a b, collection_name ≠ a +:+ " (" +:+ b) → name = collection_name)
  ∧ ((∃ a b, collection_name = a +:+ " (" +:+ b) →
     ∃ rest, collection_name = name +:+ " (" +:+ rest
             ∧ (String.length name < String.length collection_name)%nat
             ∧ ∀ a b, name ≠ a +:+ " (" +:+ b).
Proof.
  intros name.
  assert (name = item_collection_name collection_name) as ->.
  { subst name. unfold exclusion_item. apply item_collection_name_app.
    - intros c rest. cbv [String.append]. by intros [= <- _].
    - done. }
  split.
  - apply item_collection_name_whole.
  - intros Hsep.
    destruct (item_collection_name_prefix _ Hsep) as [rest Hrest].
    exists rest. split; [done|]. split.
    + rewrite Hrest at 2. rewrite !string_length_app. simpl. lia.
    + intros a b. apply item_collection_name_clean.
Qed.

Lemma exclusion_item_name_witness :
  item_collection_name (exclusion_item "Up" "2024-05-01") = "Up"
  ∧ ∃ rest,
      "Marvel (MCU)"
      = item_collection_name (exclusion_item "Marvel (MCU)" "2024-05-01")
        +:+ " (" +:+ rest.
Proof.
  split.
  - apply (exclusion_item_name "Up" "2024-05-01").
    intros a b Heq.
    destruct a as [|x [|y [|z a]]]; discriminate Heq.
  - destruct (exclusion_item_name "Marvel (MCU)" "2024-05-01") as [_ H].
    destruct H as (rest & H & _); [by exists "Marvel", "MCU)"|].
    by exists rest.
Defined.

(** The texts involved. *)
Lemma exclusion_item_texts :
  exclusion_item "Marvel (MCU)" "2024-05-01"
  = "Marvel (MCU) (Expires: 2024-05-01)"
  ∧ item_collection_name "Marvel (MCU) (Expires: 2024-05-01)" = "Marvel"
  ∧ item_collection_name "Up (Expires: 2024-05-01)" = "Up".
Proof. split_and!; by vm_compute. Qed.

Lemma remove_items_lookup (selected : list string)
    (used : gmap string string) t :
  foldl (λ u item_text, delete (item_collection_name item_text) u) used
        selected !! t
  = if decide (t ∈ item_collection_name <$> selected) then None
    else used !! t.
Proof.
  revert used. induction selected as [|x l IH]; intros used.
  { cbn [foldl]. case_decide as H; [|done].
    rewrite fmap_nil in H. by apply elem_of_nil in H. }
  cbn [foldl]. rewrite IH, fmap_cons.
  case_decide as H1; case_decide as H2; try done.
  - destruct H2. by apply list_elem_of_further.
  - apply elem_of_cons in H2 as [->|?]; [|done]. apply lookup_delete_eq.
  - apply lookup_delete_ne. intros <-. apply H2, list_elem_of_here.
Qed.

(** Removing the selected items deletes from the cooldown file exactly the
    entries named by the texts before the first [" ("] of the selected
    items, and keeps every other entry. *)
Theorem remove_selected_exclusions (x : string) (selected : list string)
    (used : gmap string string) (st : State) :
  used_collections_file st = Content used →
  ∃ st' used',
    remove_exclusion_list_item (x :: selected) st = (st', Return tt)
    ∧ used_collections_file st' = Content used'
    ∧ ∀ t, used' !! t
           = if decide (t ∈ item_collection_name <$> x :: selected) then None
             else used !! t.
Proof.
  intros Hfile. unfold remove_exclusion_list_item.
  unfold bindM at 1. unfold load_used_collections at 1. rewrite Hfile.
  eexists _, _. split; [reflexivity|]. split; [reflexivity|].
  intros t. apply (remove_items_lookup (x :: selected)).
Qed.

Lemma remove_selected_exclusions_witness :
  ∃ st' used',
    remove_exclusion_list_item
      [exclusion_item "Marvel (MCU)" "2024-04-04"]
      (mkState (Content {[ "Marvel" := "2024-04-02";
                           "Marvel (MCU)" := "2024-04-04" ]}) [] [] 0 0)
    = (st', Return tt)
    ∧ used_collections_file st' = Content used'
    ∧ used' !! "Marvel" = None
    ∧ used' !! "Marvel (MCU)" = Some "2024-04-04".
Proof.
  destruct (remove_selected_exclusions
              (exclusion_item "Marvel (MCU)" "2024-04-04") []
              {[ "Marvel" := "2024-04-02"; "Marvel (MCU)" := "2024-04-04" ]}
              (mkState (Content {[ "Marvel" := "2024-04-02";
                                   "Marvel (MCU)" := "2024-04-04" ]})
                       [] [] 0 0))
    as (st' & used' & H1 & H2 & H3).
  - reflexivity.
  - exists st', used'. split; [exact H1|]. split; [exact H2|].
    split; rewrite H3; by vm_compute.
Defined.

(** ** A negative limit *)

(** With a negative limit the selection step neither signals a reset nor
    picks anything: when some collection is eligible, [sample] raises
    [ValueError]; when none is, the library is skipped. *)
Theorem negative_limit_pins_nothing (rng : Rng) (i : nat)
    (collections : list Collection) (Q min_items : Z)
    (used : gmap string string) (exemptions : list string) :
  Q < 0 →
  select rng i collections Q min_items used exemptions
  = match valid_collections collections min_items used exemptions with
    | [] => Skipped
    | _ => SampleFailed ValueError
    end.
Proof.
  intros HQ. unfold select.
  destruct (decide (_ < Q)); [lia|].
  destruct (valid_collections _ _ _ _) as [|c E] eqn:HE; [done|].
  unfold sample. rewrite decide_False; [done|]. lia.
Qed.

Lemma negative_limit_pins_nothing_witness :
  select (λ n, n) 0 movies (-1) 1 ∅ [] = SampleFailed ValueError.
Proof.
  rewrite (negative_limit_pins_nothing (λ n, n) 0%nat movies (-1) 1 ∅ [])
    by lia.
  reflexivity.
Defined.

(** ** A limit equal to the number of eligible collections *)

(** When the limit is exactly the number of eligible collections, and there
    is at least one, every eligible collection is selected, each once. *)
Theorem select_all_when_limit_is_met (rng : Rng) (i : nat)
    (collections : list Collection) (Q min_items : Z)
    (used : gmap string string) (exemptions : list string) :
  Q = Z.of_nat (length (valid_collections collections min_items used
                                          exemptions)) →
  0 < Q →
  ∃ to_pin,
    select rng i collections Q min_items used exemptions = Picked to_pin
    ∧ to_pin ≡ₚ valid_collections collections min_items used exemptions.
Proof.
  intros HQ Hpos.
  destruct (select_within rng i collections Q min_items used exemptions)
    as [_ Hlen]; [lia|].
  destruct (select rng i collections Q min_items used exemptions)
    as [| |to_pin|e] eqn:Hs; simpl in Hlen; try lia.
  exists to_pin. split; [done|].
  apply select_picked in Hs as [_ [rest Hperm]].
  assert (length rest = 0)%nat as Hrest.
  { apply Permutation_length in Hperm. rewrite length_app in Hperm. lia. }
  destruct rest; [|done]. by rewrite app_nil_r in Hperm.
Qed.

Lemma select_all_when_limit_is_met_witness :
  ∃ to_pin, select (λ n, n) 0 movies 2 1 ∅ [] = Picked to_pin
            ∧ to_pin ≡ₚ valid_collections movies 1 ∅ [].
Proof.
  apply (select_all_when_limit_is_met (λ n, n) 0 movies 2 1 ∅ []).
  - reflexivity.
  - lia.
Defined.
